(** * The streaming row scanner of go-couchdb (couchdb.go)

    A shallow embedding of [Row], [RowScanner] and the read loop that
    frames a view response line by line, together with the two goroutines
    (reader and consumer) as an interleaving transition system. *)

From Stdlib Require Import List String NArith Bool Arith Lia.
From Stdlib.Strings Require Import Byte.
From Stdlib Require Import ZArith DecimalString.
Import ListNotations.

Local Open Scope list_scope.
Local Open Scope byte_scope.

Set Implicit Arguments.

(** ** Byte slices: the functions of package [bytes] the read loop uses *)

Module bytes.

Definition t := list byte.

(** [bytes.Equal]: same length and same bytes. *)
Fixpoint Equal (a b : t) : bool :=
  match a, b with
  | [], [] => true
  | x :: a', y :: b' => Byte.eqb x y && Equal a' b'
  | _, _ => false
  end.

(** [bytes.HasSuffix(s, suffix)] is
    [len(s) >= len(suffix) && Equal(s[len(s)-len(suffix):], suffix)]. *)
Definition HasSuffix (s suffix : t) : bool :=
  (List.length suffix <=? List.length s)
  && Equal (skipn (List.length s - List.length suffix) s) suffix.

Definition mem (b : byte) (cutset : t) : bool :=
  existsb (Byte.eqb b) cutset.

(** [bytes.TrimRight(s, cutset)]: [s] without its longest suffix made of
    bytes of [cutset] (the cutsets used here are ASCII). *)
Fixpoint TrimRight (s cutset : t) : t :=
  match s with
  | [] => []
  | b :: s' =>
      match TrimRight s' cutset with
      | [] => if mem b cutset then [] else [b]
      | kept => b :: kept
      end
  end.

End bytes.

(** Text of the wire format is written with ['] standing for the double
    quote; [txt] puts the double quotes back. *)
Definition txt (s : string) : bytes.t :=
  map (fun b => if Byte.eqb b "'" then x22 else b) (list_byte_of_string s).

Definition CR : byte := x0d.
Definition LF : byte := x0a.

(** ** Errors *)

Inductive error : Type :=
| io_EOF                          (* io.EOF: the body ended *)
| io_failure (code : nat)         (* any other error of the body's Read *)
| json_SyntaxError                (* *json.SyntaxError *)
| json_UnmarshalTypeError         (* *json.UnmarshalTypeError *)
| errors_New (msg : string).      (* errors.New(msg) *)

(** ** Row *)

(** [json.RawMessage] is a byte slice; the two payload fields are pointers
    to one, [None] being the nil pointer. *)
Record Row : Type := mkRow {
  ID : string;
  Key : string;
  Value_ : option bytes.t;
  Doc_ : option bytes.t
}.

(** The zero value of [Row] ([var row Row]). *)
Definition Row_zero : Row := mkRow EmptyString EmptyString None None.

Definition HasValue (r : Row) : bool :=
  match Value_ r with Some _ => true | None => false end.

Definition HasDoc (r : Row) : bool :=
  match Doc_ r with Some _ => true | None => false end.

(** [Value] and [Doc] have a value receiver: they work on a copy of the
    row, and the caller's row after the call is the one before it.  The
    target [v] is what [json.Unmarshal] is given to fill; the decoder is
    that of the target's type, and it returns the target as it leaves it
    together with the error.  A call returns the caller's row, the target
    and the error. *)
Section RowDecode.

Variable T : Type.
Variable Unmarshal : bytes.t -> T -> T * option error.

Definition Value (r : Row) (v : T) : Row * T * option error :=
  match Value_ r with
  | Some raw => let (v', e) := Unmarshal raw v in (r, v', e)
  | None => (r, v, Some (errors_New "value is nil."%string))
  end.

Definition Doc (r : Row) (v : T) : Row * T * option error :=
  match Doc_ r with
  | Some raw => let (v', e) := Unmarshal raw v in (r, v', e)
  | None => (r, v, Some (errors_New "doc is nil."%string))
  end.

End RowDecode.

(** ** A model of [json.Unmarshal] at the type [Row]

    [encoding/json] first checks that the whole input is one JSON value
    (surrounded by blanks only) and reports a syntax error otherwise; it
    then stores the members of the top-level object into the fields tagged
    [id], [key], [value] and [doc].  Keys are matched without regard to
    case.  A string field takes a JSON string, is left alone by [null], and
    any other value is a type error (reported once the whole object has
    been read).  A raw-message pointer takes the member's raw text, and
    [null] makes it nil.  Ill-formed UTF-8 inside a string is copied as it
    is (Go substitutes U+FFFD), and the nesting limit is not modelled. *)

Module json.

Definition byte_of (n : N) : byte :=
  match Byte.of_N n with Some b => b | None => x00 end.

Definition between (lo hi b : byte) : bool :=
  (Byte.to_N lo <=? Byte.to_N b)%N && (Byte.to_N b <=? Byte.to_N hi)%N.

Definition is_space (b : byte) : bool :=
  (b =? " ") || (b =? x09) || (b =? CR) || (b =? LF).

Definition is_digit (b : byte) : bool := between "0" "9" b.

Fixpoint skip_space (s : bytes.t) : bytes.t :=
  match s with
  | b :: s' => if is_space b then skip_space s' else s
  | [] => []
  end.

Fixpoint skip_digits (s : bytes.t) : bytes.t :=
  match s with
  | b :: s' => if is_digit b then skip_digits s' else s
  | [] => []
  end.

(** [strip p s]: [s] without its prefix [p], if it has it. *)
Fixpoint strip (p s : bytes.t) : option bytes.t :=
  match p, s with
  | [], _ => Some s
  | x :: p', y :: s' => if x =? y then strip p' s' else None
  | _ :: _, [] => None
  end.

(** *** Numbers: an optional minus sign, then 0 or a digit 1-9 with more
    digits, then optionally a dot with one digit or more, then optionally
    an exponent (e or E, an optional sign, one digit or more). *)

Definition exponent (s : bytes.t) : option bytes.t :=
  match s with
  | e :: s1 =>
      if (e =? "e") || (e =? "E") then
        let s2 := match s1 with
                  | sg :: s' => if (sg =? "+") || (sg =? "-") then s' else s1
                  | [] => s1
                  end in
        match s2 with
        | d :: s3 => if is_digit d then Some (skip_digits s3) else None
        | [] => None
        end
      else Some s
  | [] => Some s
  end.

Definition fraction (s : bytes.t) : option bytes.t :=
  match s with
  | dot :: s1 =>
      if dot =? "." then
        match s1 with
        | d :: s2 => if is_digit d then exponent (skip_digits s2) else None
        | [] => None
        end
      else exponent s
  | [] => exponent s
  end.

Definition number (s : bytes.t) : option bytes.t :=
  let s1 := match s with
            | m :: s' => if m =? "-" then s' else s
            | [] => s
            end in
  match s1 with
  | d :: s2 =>
      if d =? "0" then fraction s2
      else if between "1" "9" d then fraction (skip_digits s2)
      else None
  | [] => None
  end.

(** *** Strings *)

Definition hex_digit (b : byte) : option N :=
  if is_digit b then Some (Byte.to_N b - 48)%N
  else if between "a" "f" b then Some (Byte.to_N b - 87)%N
  else if between "A" "F" b then Some (Byte.to_N b - 55)%N
  else None.

(** [getu4]: the code unit of a [\uXXXX] escape at the head of [s]. *)
Definition getu4 (s : bytes.t) : option (N * bytes.t) :=
  match s with
  | bs :: u :: a :: b :: c :: d :: s' =>
      if (bs =? "\") && (u =? "u") then
        match hex_digit a, hex_digit b, hex_digit c, hex_digit d with
        | Some a, Some b, Some c, Some d =>
            Some ((a * 4096 + b * 256 + c * 16 + d)%N, s')
        | _, _, _, _ => None
        end
      else None
  | _ => None
  end.

(** [utf8.EncodeRune]. *)
Definition utf8 (r : N) : bytes.t :=
  if (r <? 128)%N then [byte_of r]
  else if (r <? 2048)%N then
    [byte_of (192 + r / 64); byte_of (128 + r mod 64)]
  else if (r <? 65536)%N then
    [byte_of (224 + r / 4096); byte_of (128 + (r / 64) mod 64);
     byte_of (128 + r mod 64)]
  else
    [byte_of (240 + r / 262144); byte_of (128 + (r / 4096) mod 64);
     byte_of (128 + (r / 64) mod 64); byte_of (128 + r mod 64)].

Definition replacement : N := 65533.

Definition is_surrogate (r : N) : bool := (55296 <=? r)%N && (r <? 57344)%N.

(** [utf16.DecodeRune]. *)
Definition decode_pair (r1 r2 : N) : N :=
  if (55296 <=? r1)%N && (r1 <? 56320)%N && (56320 <=? r2)%N && (r2 <? 57344)%N
  then ((r1 - 55296) * 1024 + (r2 - 56320) + 65536)%N
  else replacement.

Definition unescape (c : byte) : option byte :=
  if (c =? x22) || (c =? "\") || (c =? "/") then Some c
  else if c =? "b" then Some x08
  else if c =? "f" then Some x0c
  else if c =? "n" then Some LF
  else if c =? "r" then Some CR
  else if c =? "t" then Some x09
  else None.

Definition prepend (p : bytes.t) (r : option (bytes.t * bytes.t))
  : option (bytes.t * bytes.t) :=
  match r with
  | Some (str, rest) => Some (p ++ str, rest)
  | None => None
  end.

(** [quoted fuel s]: [s] starts just after an opening quote; the result
    is the string's contents and what follows the closing quote. *)
Fixpoint quoted (fuel : nat) (s : bytes.t) : option (bytes.t * bytes.t) :=
  match fuel with
  | O => None
  | S f =>
      match s with
      | [] => None
      | b :: s1 =>
          if b =? x22 then Some ([], s1)
          else if b =? "\" then
            match s1 with
            | [] => None
            | c :: s2 =>
                if c =? "u" then
                  match getu4 s with
                  | None => None
                  | Some (r1, s3) =>
                      if is_surrogate r1 then
                        match getu4 s3 with
                        | Some (r2, s4) =>
                            if (decode_pair r1 r2 =? replacement)%N
                            then prepend (utf8 replacement) (quoted f s3)
                            else prepend (utf8 (decode_pair r1 r2)) (quoted f s4)
                        | None => prepend (utf8 replacement) (quoted f s3)
                        end
                      else prepend (utf8 r1) (quoted f s3)
                  end
                else
                  match unescape c with
                  | Some x => prepend [x] (quoted f s2)
                  | None => None
                  end
            end
          else if (Byte.to_N b <? 32)%N then None
          else prepend [b] (quoted f s1)
      end
  end.

Definition string_lit (s : bytes.t) : option (bytes.t * bytes.t) :=
  quoted (S (List.length s)) s.

(** *** Values *)

(** A value, with for every object member its key and its raw text. *)
#[local] Unset Elimination Schemes.
Inductive value : Type :=
| Null
| Bool (b : bool)
| Number
| String (s : bytes.t)
| Array
| Object (members : list (bytes.t * (bytes.t * value))).
#[local] Set Elimination Schemes.

Definition consumed (before after : bytes.t) : bytes.t :=
  firstn (List.length before - List.length after) before.

Fixpoint parse_value (fuel : nat) (s : bytes.t) {struct fuel}
  : option (value * bytes.t) :=
  match fuel with
  | O => None
  | S f =>
      match s with
      | [] => None
      | b :: s1 =>
          if b =? "{" then
            match strip ["}"] (skip_space s1) with
            | Some s2 => Some (Object [], s2)
            | None =>
                match parse_members f (skip_space s1) with
                | Some (ms, s2) => Some (Object ms, s2)
                | None => None
                end
            end
          else if b =? "[" then
            match strip ["]"] (skip_space s1) with
            | Some s2 => Some (Array, s2)
            | None =>
                match parse_elems f (skip_space s1) with
                | Some s2 => Some (Array, s2)
                | None => None
                end
            end
          else if b =? x22 then
            match string_lit s1 with
            | Some (str, s2) => Some (String str, s2)
            | None => None
            end
          else
            match strip (txt "true") s, strip (txt "false") s,
                  strip (txt "null") s with
            | Some s2, _, _ => Some (Bool true, s2)
            | _, Some s2, _ => Some (Bool false, s2)
            | _, _, Some s2 => Some (Null, s2)
            | None, None, None =>
                match number s with
                | Some s2 => Some (Number, s2)
                | None => None
                end
            end
      end
  end

with parse_members (fuel : nat) (s : bytes.t) {struct fuel}
  : option (list (bytes.t * (bytes.t * value)) * bytes.t) :=
  match fuel with
  | O => None
  | S f =>
      match strip [x22] s with
      | None => None
      | Some s1 =>
          match string_lit s1 with
          | None => None
          | Some (key, s2) =>
              match strip [":"] (skip_space s2) with
              | None => None
              | Some s3 =>
                  let s4 := skip_space s3 in
                  match parse_value f s4 with
                  | None => None
                  | Some (v, s5) =>
                      let m := (key, (consumed s4 s5, v)) in
                      match strip [","] (skip_space s5),
                            strip ["}"] (skip_space s5) with
                      | Some s6, _ =>
                          match parse_members f (skip_space s6) with
                          | Some (ms, s7) => Some (m :: ms, s7)
                          | None => None
                          end
                      | None, Some s6 => Some ([m], s6)
                      | None, None => None
                      end
                  end
              end
          end
      end
  end

with parse_elems (fuel : nat) (s : bytes.t) {struct fuel}
  : option bytes.t :=
  match fuel with
  | O => None
  | S f =>
      match parse_value f s with
      | None => None
      | Some (_, s1) =>
          match strip [","] (skip_space s1), strip ["]"] (skip_space s1) with
          | Some s2, _ => parse_elems f (skip_space s2)
          | None, Some s2 => Some s2
          | None, None => None
          end
      end
  end.

(** [checkValid] and the scan in one: the value of a whole input. *)
Definition parse (data : bytes.t) : option value :=
  let s := skip_space data in
  match parse_value (S (List.length s)) s with
  | Some (v, rest) =>
      match skip_space rest with
      | [] => Some v
      | _ :: _ => None
      end
  | None => None
  end.

(** *** Storing into a [Row] *)

(** Case folding of a key: ASCII letters, and the Kelvin sign (U+212A)
    which folds to [k]. *)
Definition lower (b : byte) : byte :=
  if between "A" "Z" b then byte_of (Byte.to_N b + 32) else b.

Fixpoint fold (key : bytes.t) : bytes.t :=
  match key with
  | [] => []
  | b :: key' =>
      match key' with
      | c :: d :: rest =>
          if (b =? xe2) && (c =? x84) && (d =? xaa) then "k" :: fold rest
          else lower b :: fold key'
      | _ => lower b :: fold key'
      end
  end.

Definition names (name : string) (key : bytes.t) : bool :=
  bytes.Equal (fold key) (list_byte_of_string name).

Definition save (e : option error) : option error :=
  match e with
  | Some _ => e
  | None => Some json_UnmarshalTypeError
  end.

Definition store_string (v : value) (old : string) (e : option error)
  : string * option error :=
  match v with
  | String s => (string_of_list_byte s, e)
  | Null => (old, e)
  | _ => (old, save e)
  end.

Definition store_raw (raw : bytes.t) (v : value) : option bytes.t :=
  match v with
  | Null => None
  | _ => Some raw
  end.

Definition store (acc : Row * option error)
           (m : bytes.t * (bytes.t * value)) : Row * option error :=
  let '(row, e) := acc in
  let '(key, (raw, v)) := m in
  if names "id" key then
    let (s, e') := store_string v (ID row) e in
    (mkRow s (Key row) (Value_ row) (Doc_ row), e')
  else if names "key" key then
    let (s, e') := store_string v (Key row) e in
    (mkRow (ID row) s (Value_ row) (Doc_ row), e')
  else if names "value" key then
    (mkRow (ID row) (Key row) (store_raw raw v) (Doc_ row), e)
  else if names "doc" key then
    (mkRow (ID row) (Key row) (Value_ row) (store_raw raw v), e)
  else acc.

(** [var row Row; err := json.Unmarshal(data, &row)]. *)
Definition Unmarshal_Row (data : bytes.t) : Row * option error :=
  match parse data with
  | None => (Row_zero, Some json_SyntaxError)
  | Some (Object ms) => fold_left store ms (Row_zero, None)
  | Some Null => (Row_zero, None)
  | Some _ => (Row_zero, Some json_UnmarshalTypeError)
  end.

End json.

(** ** Rows and targets in memory

    The payload fields of a [Row] are pointers, and a copy of a row (the
    value receiver of [Value] and [Doc] is one) points to the same two
    raw messages as the row it was copied from.  Where it matters what
    else points to them, the raw messages of the program live in a
    memory, by address: [Value_] and [Doc_] hold addresses, and a target
    of type [*json.RawMessage] is an address too, possibly that of a
    payload of the very row it is given to ([r.Value(r.Doc_)]). *)

Module heap.

Definition addr : Type := nat.

Definition memory : Type := addr -> bytes.t.

(** [*p = raw]. *)
Definition write (m : memory) (p : addr) (raw : bytes.t) : memory :=
  fun a => if Nat.eqb a p then raw else m a.

(** A row with the bytes of its payloads, as above. *)
Definition contents : Type := Row.
Definition mkContents : string -> string -> option bytes.t ->
                        option bytes.t -> contents := mkRow.

Record Row : Type := mkRow {
  ID : string;
  Key : string;
  Value_ : option addr;
  Doc_ : option addr
}.

(** What the row holds in memory [m]. *)
Definition load (m : memory) (r : Row) : contents :=
  mkContents (ID r) (Key r) (option_map m (Value_ r)) (option_map m (Doc_ r)).

(** The target [v interface{}] of a decode: a non-nil
    [*json.RawMessage], or a target of another type, which shares
    nothing with the raw messages of the memory and whose state is
    [v]. *)
Inductive target (T : Type) : Type :=
| RawMessage (p : addr)
| Other (v : T).

Arguments RawMessage {T} p.
Arguments Other {T} v.

(** The text of the value of a whole input, without the blanks around
    it; [None] when the input is not one JSON value ([checkValid]
    fails).  As in the model of the decoder above, the nesting limit of
    the scanner is not modelled. *)
Definition value_text (data : bytes.t) : option bytes.t :=
  let s := json.skip_space data in
  match json.parse_value (S (List.length s)) s with
  | Some (_, rest) =>
      match json.skip_space rest with
      | [] => Some (json.consumed s rest)
      | _ :: _ => None
      end
  | None => None
  end.

Section Decode.

Variable T : Type.
Variable Unmarshal_T : bytes.t -> T -> T * option error.

(** [json.Unmarshal(data, v)].  For a [*json.RawMessage] the input is
    checked and the text of its value goes to the message's method
    [UnmarshalJSON], which copies it over the message (it appends the
    text to the message cut down to length 0).  Any other target is
    filled by the decoder of its type. *)
Definition Unmarshal (m : memory) (data : bytes.t) (v : target T)
  : memory * target T * option error :=
  match v with
  | RawMessage p =>
      match value_text data with
      | Some raw => (write m p raw, v, None)
      | None => (m, v, Some json_SyntaxError)
      end
  | Other x => let (x', e) := Unmarshal_T data x in (m, Other x', e)
  end.

(** [Value] and [Doc]: the memory and the target as the call leaves
    them, and the error. *)
Definition Value (m : memory) (r : Row) (v : target T)
  : memory * target T * option error :=
  match Value_ r with
  | Some p => Unmarshal m (m p) v
  | None => (m, v, Some (errors_New "value is nil."%string))
  end.

Definition Doc (m : memory) (r : Row) (v : target T)
  : memory * target T * option error :=
  match Doc_ r with
  | Some p => Unmarshal m (m p) v
  | None => (m, v, Some (errors_New "doc is nil."%string))
  end.




End Decode.

End heap.

(** ** The response body and its buffered reader *)

Record Body : Type := mkBody {
  unread : bytes.t;   (* what the server sent and nobody has read yet *)
  fail : error;       (* what Read returns after that: io.EOF, or a failure *)
  closed : nat;       (* how many times Close was called *)
  lost : bytes.t      (* what was still unread when Close was called *)
}.

(** [io.Copy(ioutil.Discard, body)] reads the body to its end. *)
Definition io_Copy_Discard (b : Body) : Body :=
  mkBody [] (fail b) (closed b) (lost b).

(** [body.Close()]. *)
Definition Body_Close (b : Body) : Body :=
  mkBody [] (fail b) (S (closed b)) (lost b ++ unread b).

(** The bytes up to and including the first [delim], and what follows it;
    without a [delim], all the bytes and nothing. *)
Fixpoint cut (delim : byte) (s : bytes.t) : bytes.t * option bytes.t :=
  match s with
  | [] => ([], None)
  | b :: s' =>
      if b =? delim then ([b], Some s')
      else let (line, rest) := cut delim s' in (b :: line, rest)
  end.

(** [bufio.Reader.ReadBytes(delim)]: the line with its delimiter; when the
    body ends first, the bytes read so far and the body's error. *)
Definition ReadBytes (delim : byte) (b : Body) : bytes.t * option error * Body :=
  match cut delim (unread b) with
  | (line, Some rest) => (line, None, mkBody rest (fail b) (closed b) (lost b))
  | (line, None) => (line, Some (fail b), mkBody [] (fail b) (closed b) (lost b))
  end.

Definition delim : byte := LF.                        (* row delimiter *)
Definition endMarker : bytes.t := ["}"; CR; LF].      (* absence of comma means last record. *)

(** ** The scanner and its two goroutines

    The reader goroutine runs [readLoop]; the consumer calls [Scan], [Row],
    [Err] and [Close].  Both are cut at the points where they touch what
    they share (the body, the channels [rows] and [quit], the error slot),
    and an execution is an interleaving of their steps.

    [rows] is unbuffered and [quit] is only ever closed.  A [select] looks
    at its cases when it is reached: if some can proceed one of those is
    taken (which one is the scheduler's choice), otherwise the goroutine
    parks on all of them and is woken by the first communication that
    reaches it: a partner arriving on [rows], or a [close] of one of its
    channels.  The trace records what the calls of the consumer return,
    and two counters record how often the reader reads a line and writes
    the error slot. *)

Inductive reader_pc : Type :=
| AtHeader                           (* about to read the first line *)
| AtPoll                             (* top of the loop: select on quit, with default *)
| AtRead                             (* about to read a line in the loop *)
| AtSend (r : Row) (last : bool)     (* reaching the select that offers the row *)
| Parked (r : Row) (last : bool)     (* parked in that select *)
| Returning                          (* returned, deferred calls still to run *)
| Done.                              (* the goroutine is over *)

Inductive consumer_pc : Type :=
| Idle                               (* not inside Scan *)
| InScan.                            (* parked in the select of Scan *)

(** What the consumer sees. *)
Inductive event : Type :=
| EvScan (ok : bool) (current : Row) (* Scan returned ok; Row() now gives current *)
| EvErr (e : option error)           (* Err returned e *)
| EvClose (e : option error)         (* Close returned e *)
| EvPanic.                           (* a call panicked *)

Record RowScanner : Type := mkScanner {
  resp_Body : Body;                  (* s.resp.Body *)
  row : Row;                         (* s.row *)
  quit : bool;                       (* s.quit is closed *)
  rows : bool;                       (* s.rows is closed *)
  err : option error;                (* s.err, None for nil *)
  reader : reader_pc;
  consumer : consumer_pc;
  panicked : bool;                   (* the program died of a panic *)
  trace : list event;                (* the consumer's observations, oldest first *)
  reads : nat;                       (* calls of ReadBytes so far *)
  err_writes : nat                   (* calls of setErr so far *)
}.

(** [newRowScanner(resp)]: fresh channels, and the reader is started. *)
Definition newRowScanner (body : Body) : RowScanner :=
  mkScanner body Row_zero false false None AtHeader Idle false [] 0 0.

Definition at_reader (pc : reader_pc) (s : RowScanner) : RowScanner :=
  mkScanner (resp_Body s) (row s) (quit s) (rows s) (err s) pc (consumer s)
            (panicked s) (trace s) (reads s) (err_writes s).

Definition observe (ev : event) (s : RowScanner) : RowScanner :=
  mkScanner (resp_Body s) (row s) (quit s) (rows s) (err s) (reader s)
            (consumer s) (panicked s) (trace s ++ [ev]) (reads s) (err_writes s).

(** The pending [Scan] returns: its select took the case that assigns
    [r] to [s.row] (when there is one) and it reports [ok]. *)
Definition scan_returns (ok : bool) (r : option Row) (s : RowScanner) : RowScanner :=
  let current := match r with Some x => x | None => row s end in
  mkScanner (resp_Body s) current (quit s) (rows s) (err s) (reader s) Idle
            (panicked s) (trace s ++ [EvScan ok current]) (reads s) (err_writes s).

(** [s.setErr(err)]. *)
Definition setErr (e : error) (s : RowScanner) : RowScanner :=
  mkScanner (resp_Body s) (row s) (quit s) (rows s) (Some e) (reader s)
            (consumer s) (panicked s) (trace s) (reads s) (S (err_writes s)).

(** One call of [b.ReadBytes(delim)] on the scanner's body. *)
Definition read_line (s : RowScanner) : bytes.t * option error * RowScanner :=
  let '(line, e, b) := ReadBytes delim (resp_Body s) in
  (line, e,
   mkScanner b (row s) (quit s) (rows s) (err s) (reader s) (consumer s)
             (panicked s) (trace s) (S (reads s)) (err_writes s)).

(** The deferred calls of [readLoop], in the order they run: the body is
    drained and closed, then [rows] is closed, which wakes a consumer
    parked in [Scan] with the zero row and [ok = false]. *)
Definition deferred (s : RowScanner) : RowScanner :=
  let s1 :=
    mkScanner (Body_Close (io_Copy_Discard (resp_Body s))) (row s) (quit s)
              true (err s) Done (consumer s) (panicked s) (trace s)
              (reads s) (err_writes s) in
  match consumer s with
  | InScan => scan_returns false (Some Row_zero) s1
  | Idle => s1
  end.

(** The row goes from the reader's select to the consumer's: [Scan]
    returns true, and the reader goes on ([last] makes it return). *)
Definition hand_off (r : Row) (last : bool) (s : RowScanner) : RowScanner :=
  at_reader (if last then Returning else AtPoll) (scan_returns true (Some r) s).

(** The moves of an execution. *)
Inductive action : Type :=
| Reader (pick_quit : bool)        (* the reader goroutine moves *)
| CallScan (pick_quit : bool)
| CallErr
| CallClose.

Definition http_body (data : bytes.t) : Body := mkBody data io_EOF 0 [].

(** The consumer loop [for s.Scan() { ... }; s.Err()] with the reader
    running while the consumer waits: every round is a call of [Scan]
    and enough reader steps to get to its answer. *)
Definition round : list action :=
  [CallScan false; Reader false; Reader false; Reader false; Reader false].

Fixpoint rounds (n : nat) : list action :=
  match n with
  | O => []
  | S n' => round ++ rounds n'
  end.

(** The moves that take a row the reader has framed to the consumer:
    the consumer calls [Scan], unless it is waiting in it already, and
    the reader's select hands the row over. *)
Definition yield (cs : consumer_pc) : list action :=
  match cs with
  | Idle => [CallScan false; Reader false]
  | InScan => [Reader false]
  end.

(** ** The wire format the read loop recognises

    After the header line: rows followed by a comma, one per line, every
    line ended by CR LF; then either the last row, without comma, or a
    closing line. *)

Definition row_line (p : bytes.t) : bytes.t := p ++ [","; CR; LF].

Definition last_line (p : bytes.t) : bytes.t := p ++ [CR; LF].

(** The header line (whatever it holds, CR included), the rows with a
    comma, the ending, and whatever follows. *)
Definition response (header : bytes.t) (ps : list bytes.t)
           (ending tail : bytes.t) : bytes.t :=
  header ++ [LF] ++ List.concat (map row_line ps) ++ ending ++ tail.

(** What the loop accepts between a row and the line feed: commas and
    CRs in any number and order (it trims them all), except a single CR,
    which makes the last-row marker. *)
Definition separator (sep : bytes.t) : Prop :=
  Forall (fun b => b = "," \/ b = CR) sep /\ sep <> [CR].

Definition loose_line (l : bytes.t * bytes.t) : bytes.t :=
  fst l ++ snd l ++ [LF].

Definition loose_response (header : bytes.t) (lines : list (bytes.t * bytes.t))
           (ending tail : bytes.t) : bytes.t :=
  header ++ [LF] ++ List.concat (map loose_line lines) ++ ending ++ tail.

(** ** Reading a trace *)

Definition is_scan (ev : event) : bool :=
  match ev with EvScan _ _ => true | _ => false end.

(** The answers of [Scan], in order. *)
Definition scans (tr : list event) : list event := filter is_scan tr.

Definition is_refusal (ev : event) : bool :=
  match ev with EvScan false _ => true | _ => false end.

Definition is_delivery (ev : event) : bool :=
  match ev with EvScan true _ => true | _ => false end.

(** No [Scan] succeeds after one has failed. *)
Fixpoint settled (tr : list event) : bool :=
  match tr with
  | [] => true
  | ev :: tr' =>
      if is_refusal ev then forallb (fun ev' => negb (is_delivery ev')) tr'
      else settled tr'
  end.

(** The rows that [Scan] delivered, in order. *)
Fixpoint deliveries (tr : list event) : list Row :=
  match tr with
  | [] => []
  | EvScan true r :: tr' => r :: deliveries tr'
  | _ :: tr' => deliveries tr'
  end.

Definition is_Close (a : action) : bool :=
  match a with CallClose => true | _ => false end.

Definition calls_of_Close (sched : list action) : nat :=
  List.length (filter is_Close sched).

(** A schedule in which nobody cancels. *)
Definition uncancelled (sched : list action) : Prop :=
  Forall (fun a => is_Close a = false) sched.

(** A schedule of reader steps and calls of [Scan] only. *)
Definition is_scanning (a : action) : bool :=
  match a with Reader _ | CallScan _ => true | _ => false end.

(** The reader has seen the last-row marker, or has left the loop: it is
    not going to read again. *)
Definition stopping (pc : reader_pc) : bool :=
  match pc with
  | AtSend _ true | Parked _ true | Returning | Done => true
  | _ => false
  end.

(** How many steps the reader is from answering a consumer that waits in
    [Scan]. *)
Definition wait (pc : reader_pc) : nat :=
  match pc with
  | AtHeader => 4
  | AtPoll => 3
  | AtRead => 2
  | AtSend _ _ | Returning => 1
  | Parked _ _ | Done => 0
  end.

(** ** Bodies used as examples *)

Definition row_a : Row := mkRow "a"%string "k1"%string None None.
Definition row_b : Row := mkRow "b"%string "k2"%string None None.

(** The scenario of the specification: lines ended by a bare LF, the
    array closed on the last row's line. *)
Definition lf_body : bytes.t :=
  txt "{'total_rows':2,'offset':0,'rows':[" ++ [LF]
  ++ txt "{'id':'a','key':'k1'}," ++ [LF]
  ++ txt "{'id':'b','key':'k2'}]" ++ [LF].

(** The same result as CouchDB sends it. *)
Definition crlf_body : bytes.t :=
  txt "{'total_rows':2,'offset':0,'rows':[" ++ [CR; LF]
  ++ txt "{'id':'a','key':'k1'}," ++ [CR; LF]
  ++ txt "{'id':'b','key':'k2'}" ++ [CR; LF]
  ++ txt "]}" ++ [LF].

Definition header_2 : bytes.t :=
  txt "{'total_rows':2,'offset':0,'rows':[" ++ [CR].

Definition payload_a : bytes.t := txt "{'id':'a','key':'k1'}".
Definition payload_b : bytes.t := txt "{'id':'b','key':'k2'}".

(** Two rows on lines ended by a bare LF, the array closed on a line of
    its own: the last row's line ends in [}] and the line feed, without a
    comma. *)
Definition lf_lines : bytes.t :=
  txt "{'total_rows':2,'offset':0,'rows':[" ++ [LF]
  ++ txt "{'id':'a','key':'k1'}," ++ [LF]
  ++ txt "{'id':'b','key':'k2'}" ++ [LF]
  ++ txt "]}" ++ [LF].

(** One row, in the shape [{...,"rows":[ <row>]}] with LF line ends. *)
Definition lf_single : bytes.t :=
  txt "{'total_rows':1,'offset':0,'rows':[" ++ [LF]
  ++ txt "{'id':'a','key':'k1'}]}" ++ [LF].

(** ** What holds of the scanner in every execution *)

Definition not_parked (pc : reader_pc) : Prop :=
  match pc with Parked _ _ => False | _ => True end.

Definition is_over (pc : reader_pc) : bool :=
  match pc with Done => true | _ => false end.

Record Inv (s : RowScanner) : Prop := mkInv {
  inv_closed : closed (resp_Body s) = if is_over (reader s) then 1 else 0;
  inv_lost : lost (resp_Body s) = [];
  inv_drained : is_over (reader s) = true -> unread (resp_Body s) = [];
  inv_rows : rows s = is_over (reader s);
  inv_err : err_writes s = match err s with Some _ => 1 | None => 0 end;
  inv_err_pc : err s <> None -> reader s = Returning \/ reader s = Done;
  inv_quit : quit s = true -> consumer s = Idle /\ not_parked (reader s);
  inv_waiting : consumer s = InScan ->
                not_parked (reader s) /\ is_over (reader s) = false;
  inv_panic : panicked s = true -> quit s = true;
  inv_settled : settled (trace s) = true;
  inv_refused : existsb is_refusal (trace s) = true ->
                rows s = true \/ quit s = true
}.

(** How far the reader is from its end once the scan is cancelled. *)
Definition rank (pc : reader_pc) : nat :=
  match pc with
  | Done => 0
  | Returning => 1
  | AtPoll | AtSend _ _ | Parked _ _ => 2
  | AtHeader | AtRead => 3
  end.

(** The reader is at most the header and one row line ahead of what the
    consumer got. *)
Definition ahead (s : RowScanner) : Prop :=
  let d := List.length (deliveries (trace s)) in
  match reader s with
  | AtHeader => reads s = 0 /\ d = 0
  | AtPoll | AtRead => reads s = S d
  | AtSend _ _ | Parked _ _ => reads s = S (S d)
  | Returning | Done => d <= reads s <= S (S d)
  end.

(** ** The requests of [Client] and [DB]

    The functions of couchdb.go that talk to the server go through the
    transport embedded in [Client] and [DB] and use helpers of the package
    ([path], [optpath], [readBody], [ErrorStatus]) that are defined in
    another file.  They are parameters here, gathered in [helpers]: the
    server is any function from the requests made so far and the request
    made now to a reply or an error, and every request is logged. *)

Record Response : Type := mkResponse {
  StatusCode : Z;                    (* resp.StatusCode *)
  ContentLength : Z;                 (* resp.ContentLength *)
  Body_of : Body                     (* resp.Body *)
}.

Record call : Type := mkCall {
  closes : bool;                     (* made by closedRequest, not by request *)
  method : string;
  target : string;
  sent : option bytes.t
}.

(** [Options] is a map from strings to values of any type; an
    association list with the first entry of a key as its value. *)
Definition Options (V : Type) : Type := list (string * V).

Record helpers (V T : Type) : Type := mkHelpers {
  server : list call -> call -> Response + error;
  path : list string -> string;
  optpath : Options V -> list string -> list string -> string + error;
  ErrorStatus : error -> Z -> bool;
  readBody : Response -> T -> T * option error
}.

Section Requests.

Variables V T : Type.
Variable h : helpers V T.

(** [opts[k]]. *)
Fixpoint lookup (k : string) (m : Options V) : option V :=
  match m with
  | [] => None
  | (k', v) :: m' => if String.eqb k k' then Some v else lookup k m'
  end.

(** [opts[k] = v]. *)
Fixpoint assign (k : string) (v : V) (m : Options V) : Options V :=
  match m with
  | [] => [(k, v)]
  | (k', v') :: m' =>
      if String.eqb k k' then (k, v) :: m' else (k', v') :: assign k v m'
  end.

(** [c.request(method, path, body)] and [c.closedRequest(...)]: what the
    server answers, with the request added to the log. *)
Definition request (m p : string) (body : option bytes.t)
           (log : list call) : (Response + error) * list call :=
  let c := mkCall false m p body in (server h log c, log ++ [c]).

Definition closedRequest (m p : string) (body : option bytes.t)
           (log : list call) : (Response + error) * list call :=
  let c := mkCall true m p body in (server h log c, log ++ [c]).

(** [DB]: the transport is the one of the client, and there is the
    name. *)
Record DB : Type := mkDB { Name : string }.

(** [CreateDB]: a DB object comes back in all cases. *)
Definition CreateDB (name : string) (log : list call)
  : (DB * option error) * list call :=
  let (r, log') := closedRequest "PUT" (path h [name]) None log in
  match r with
  | inr e => ((mkDB name, Some e), log')
  | inl _ => ((mkDB name, None), log')
  end.

Definition StatusPreconditionFailed : Z := 412.

(** [EnsureDB]. *)
Definition EnsureDB (name : string) (log : list call)
  : (option DB * option error) * list call :=
  let '((db, e), log') := CreateDB name log in
  match e with
  | Some e =>
      if negb (ErrorStatus h e StatusPreconditionFailed)
      then ((None, Some e), log')
      else ((Some db, None), log')
  | None => ((Some db, None), log')
  end.

Definition viewJsonKeys : list string :=
  ["startkey"; "start_key"; "key"; "endkey"; "end_key"]%string.

Definition not_a_design_doc : error :=
  errors_New "couchdb.View: design doc name must start with _design/".

(** [View]: the result is the target as [readBody] leaves it. *)
Definition View (db : DB) (ddoc view : string) (result : T)
           (opts : Options V) (log : list call)
  : (T * option error) * list call :=
  if negb (String.prefix "_design/" ddoc) then ((result, Some not_a_design_doc), log)
  else
    match optpath h opts viewJsonKeys [Name db; ddoc; "_view"; view]%string with
    | inr e => ((result, Some e), log)
    | inl p =>
        let (r, log') := request "GET" p None log in
        match r with
        | inr e => ((result, Some e), log')
        | inl resp => (readBody h resp result, log')
        end
    end.

(** The loop [for k, v := range oopts { if _, ok := opts[k]; !ok {
    opts[k] = v } }] of [ViewScanner], where [oopts := opts] makes the two
    names one map: the entries of the map are gone through (here in the
    order of the list; Go fixes none) and the map is updated on the
    way. *)
Definition merge_options (opts : Options V) : Options V :=
  fold_left
    (fun m kv =>
       match lookup (fst kv) m with
       | Some _ => m
       | None => assign (fst kv) (snd kv) m
       end)
    opts opts.

(** [fmt.Errorf("Unexpected status code: %d", code)]. *)
Definition unexpected_status (code : Z) : error :=
  errors_New ("Unexpected status code: "
                ++ NilZero.string_of_int (Z.to_int code)).

(** What [ViewScanner] and [AllDocsScanner] do with the reply. *)
Definition scanner_of (r : Response + error)
  : option RowScanner * option error :=
  match r with
  | inr e => (None, Some e)
  | inl resp =>
      if negb (StatusCode resp =? 200)%Z
      then (None, Some (unexpected_status (StatusCode resp)))
      else (Some (newRowScanner (Body_of resp)), None)
  end.

(** [ViewScanner]: the scanner, the error, and the map of options as the
    call leaves it. *)
Definition ViewScanner (db : DB) (ddoc view : string) (opts : Options V)
           (log : list call)
  : (option RowScanner * option error * Options V) * list call :=
  if negb (String.prefix "_design/" ddoc)
  then ((None, Some not_a_design_doc, opts), log)
  else
    let opts := merge_options opts in
    match optpath h opts viewJsonKeys [Name db; ddoc; "_view"; view]%string with
    | inr e => ((None, Some e, opts), log)
    | inl p =>
        let (r, log') := request "GET" p None log in
        (scanner_of r, opts, log')
    end.

(** [AllDocsScanner]. *)
Definition AllDocsScanner (db : DB) (opts : Options V) (log : list call)
  : (option RowScanner * option error) * list call :=
  match optpath h opts viewJsonKeys [Name db; "_all_docs"]%string with
  | inr e => ((None, Some e), log)
  | inl p =>
      let (r, log') := request "GET" p None log in
      (scanner_of r, log')
  end.

End Requests.

(** ** The read loop, the calls and the executions

    Everything from here on is relative to the decoder [Unmarshal], which
    stands for [json.Unmarshal] into a fresh [Row]. *)

Section Scanner.

Variable Unmarshal : bytes.t -> Row * option error.

(** The closing lines of the array: [bytes.Equal(line, "}]\r\n") ||
    bytes.Equal(line, "\r\n")]. *)
Definition is_boundary (line : bytes.t) : bool :=
  bytes.Equal line ["}"; "]"; CR; LF] || bytes.Equal line [CR; LF].

(** An iteration of the loop between its read and its select: a closing
    line returns; otherwise the last-row marker is looked for, the line
    is trimmed and decoded, and a decoding error is recorded. *)
Definition frame (line : bytes.t) (s : RowScanner) : RowScanner :=
  if is_boundary line then at_reader Returning s
  else
    let last := bytes.HasSuffix line endMarker in
    let line := bytes.TrimRight line [","; CR; LF] in
    match Unmarshal line with
    | (_, Some e) => at_reader Returning (setErr e s)
    | (r, None) => at_reader (AtSend r last) s
    end.

(** [readLoop], one step of the reader goroutine at a time.  The two
    deferred calls run when the function returns ([Returning]).
    [pick_quit] is the choice the last select makes when both of its
    cases can proceed. *)
Definition readLoop (pick_quit : bool) (s : RowScanner) : RowScanner :=
  match reader s with
  | AtHeader =>
      (* line, err := b.ReadBytes(delim); if err != nil { s.setErr(err); return } *)
      let '(_, e, s1) := read_line s in
      match e with
      | Some e => at_reader Returning (setErr e s1)
      | None => at_reader AtPoll s1
      end
  | AtPoll =>
      (* select { case <-s.quit: return; default: } *)
      if quit s then at_reader Returning s else at_reader AtRead s
  | AtRead =>
      (* line, err = b.ReadBytes(delim); if err != nil { s.setErr(err); return } *)
      let '(line, e, s1) := read_line s in
      match e with
      | Some e => at_reader Returning (setErr e s1)
      | None => frame line s1
      end
  | AtSend r last =>
      (* select { case s.rows <- row: if last { return }; case <-s.quit: return } *)
      match consumer s, quit s with
      | InScan, false => hand_off r last s
      | InScan, true =>
          if pick_quit then at_reader Returning s else hand_off r last s
      | Idle, true => at_reader Returning s
      | Idle, false => at_reader (Parked r last) s
      end
  | Parked _ _ => s
  | Returning => deferred s
  | Done => s
  end.

(** The consumer calls [Scan]: [select { case s.row, ok = <-s.rows: ;
    case <-s.quit: return false }; return ok].  The receive can proceed
    when the reader is parked on its send or [rows] is closed; when
    nothing can proceed the consumer parks, and it is the reader's
    hand-off, the closing of [rows] or [Close] that makes the call return.
    There is one consumer: a call made while one is pending does
    nothing. *)
Definition Scan (pick_quit : bool) (s : RowScanner) : RowScanner :=
  match consumer s with
  | InScan => s
  | Idle =>
      let via_rows :=
        match reader s with
        | Parked r last => Some (hand_off r last s)
        | _ => if rows s then Some (scan_returns false (Some Row_zero) s)
               else None
        end in
      let via_quit :=
        if quit s then Some (scan_returns false None s) else None in
      match via_rows, via_quit with
      | Some s1, Some s2 => if pick_quit then s2 else s1
      | Some s1, None => s1
      | None, Some s2 => s2
      | None, None =>
          mkScanner (resp_Body s) (row s) (quit s) (rows s) (err s)
                    (reader s) InScan (panicked s) (trace s) (reads s)
                    (err_writes s)
      end
  end.

(** [Err]. *)
Definition Err (s : RowScanner) : RowScanner := observe (EvErr (err s)) s.

(** [Close]: [close(s.quit); return s.err].  Closing a closed channel
    panics; the first close wakes the selects parked on [quit], which
    take their quit case. *)
Definition Close (s : RowScanner) : RowScanner :=
  if quit s then
    mkScanner (resp_Body s) (row s) (quit s) (rows s) (err s) (reader s)
              (consumer s) true (trace s ++ [EvPanic]) (reads s)
              (err_writes s)
  else
    let s1 :=
      mkScanner (resp_Body s) (row s) true (rows s) (err s)
                (match reader s with Parked _ _ => Returning | pc => pc end)
                (consumer s) (panicked s) (trace s) (reads s)
                (err_writes s) in
    let s2 :=
      match consumer s with
      | InScan => scan_returns false None s1
      | Idle => s1
      end in
    observe (EvClose (err s2)) s2.

(** After a panic nothing runs any more. *)
Definition step (s : RowScanner) (a : action) : RowScanner :=
  if panicked s then s
  else
    match a with
    | Reader c => readLoop c s
    | CallScan c => Scan c s
    | CallErr => Err s
    | CallClose => Close s
    end.

Definition run (sched : list action) (s : RowScanner) : RowScanner :=
  fold_left step sched s.

(** ** What the read loop is going to hand over

    [loop_rows] follows the loop of [readLoop] from the bytes [data] on,
    for a scan that nobody cancels: the rows it offers, in order, and the
    error it records when it stops ([None] when it records none).  Every
    line takes at least its delimiter away, so [fuel] above the number of
    bytes is never used up. *)

Fixpoint loop_rows (fuel : nat) (failure : error) (data : bytes.t)
  : list Row * option error :=
  match fuel with
  | O => ([], None)
  | S f =>
      match cut delim data with
      | (_, None) => ([], Some failure)
      | (line, Some rest) =>
          if is_boundary line then ([], None)
          else
            match Unmarshal (bytes.TrimRight line [","; CR; LF]) with
            | (_, Some e) => ([], Some e)
            | (r, None) =>
                if bytes.HasSuffix line endMarker then ([r], None)
                else
                  let (rs, e) := loop_rows f failure rest in (r :: rs, e)
            end
      end
  end.

(** One turn of the loop on a line just read, and what follows it. *)
Definition turn (failure : error) (line : bytes.t) (rest : option bytes.t)
  : list Row * option error :=
  match rest with
  | None => ([], Some failure)
  | Some rest =>
      if is_boundary line then ([], None)
      else
        match Unmarshal (bytes.TrimRight line [","; CR; LF]) with
        | (_, Some e) => ([], Some e)
        | (r, None) =>
            if bytes.HasSuffix line endMarker then ([r], None)
            else
              let (rs, e) :=
                loop_rows (S (List.length rest)) failure rest in
              (r :: rs, e)
        end
  end.

Definition loop_of (b : Body) : list Row * option error :=
  loop_rows (S (List.length (unread b))) (fail b) (unread b).

(** The same from any point of the reader. *)
Definition pending (s : RowScanner) : list Row * option error :=
  match reader s with
  | AtHeader =>
      match cut delim (unread (resp_Body s)) with
      | (_, None) => ([], Some (fail (resp_Body s)))
      | (_, Some rest) =>
          loop_rows (S (List.length rest)) (fail (resp_Body s)) rest
      end
  | AtPoll | AtRead => loop_of (resp_Body s)
  | AtSend r last | Parked r last =>
      if last then ([r], None)
      else let (rs, e) := loop_of (resp_Body s) in (r :: rs, e)
  | Returning | Done => ([], err s)
  end.

(** A row's text on the wire: a JSON object on one line that decodes to
    the row. *)
Definition payload_of (p : bytes.t) (r : Row) : Prop :=
  Unmarshal p = (r, None) /\ ~ In LF p /\ bytes.HasSuffix p ["}"] = true.

(** How a well-formed body ends after its rows with a comma: with the
    last row, or with a closing line. *)
Inductive ending_of : bytes.t -> list Row -> Prop :=
| ending_row (p : bytes.t) (r : Row) :
    payload_of p r -> ending_of (p ++ [CR; LF]) [r]
| ending_closing (token : bytes.t) :
    is_boundary token = true -> ending_of token [].

(** * Facts about the byte-slice functions *)

Lemma byte_eqb_refl (b : byte) : (b =? b) = true.
Proof. now apply byte_dec_lb. Qed.

Lemma byte_eqb_neq (a b : byte) : a <> b -> (a =? b) = false.
Proof.
  intros Hne. destruct (a =? b) eqn:E; [|reflexivity].
  now apply byte_dec_bl in E.
Qed.

Lemma Equal_eq (a b : bytes.t) : bytes.Equal a b = true <-> a = b.
Proof.
  revert b. induction a as [|x a IH]; intros [|y b]; simpl; split;
    try discriminate; try reflexivity.
  - intros H. apply andb_true_iff in H as [Hxy Hab].
    apply byte_dec_bl in Hxy. apply IH in Hab. now subst.
  - intros H. injection H as -> ->. rewrite byte_eqb_refl. now apply IH.
Qed.

Lemma Equal_refl (a : bytes.t) : bytes.Equal a a = true.
Proof. now apply Equal_eq. Qed.

Lemma Equal_neq (a b : bytes.t) : a <> b -> bytes.Equal a b = false.
Proof.
  intros Hne. destruct (bytes.Equal a b) eqn:E; [|reflexivity].
  now apply Equal_eq in E.
Qed.

Lemma HasSuffix_iff (s suffix : bytes.t) :
  bytes.HasSuffix s suffix = true <-> exists p, s = p ++ suffix.
Proof.
  unfold bytes.HasSuffix. split.
  - intros H. apply andb_true_iff in H as [Hlen Heq].
    apply Equal_eq in Heq.
    exists (firstn (List.length s - List.length suffix) s).
    rewrite <- (firstn_skipn (List.length s - List.length suffix) s) at 1.
    now rewrite Heq.
  - intros [p ->]. rewrite length_app.
    replace (List.length p + List.length suffix - List.length suffix)
      with (List.length p + 0) by lia.
    rewrite skipn_app, Nat.add_0_r, skipn_all.
    replace (List.length p - List.length p) with 0 by lia. simpl.
    rewrite Equal_refl, andb_true_r. apply Nat.leb_le. lia.
Qed.

Lemma TrimRight_app (a b cutset : bytes.t) :
  bytes.TrimRight (a ++ b) cutset =
  match bytes.TrimRight b cutset with
  | [] => bytes.TrimRight a cutset
  | kept => a ++ kept
  end.
Proof.
  induction a as [|x a IH]; simpl.
  - now destruct (bytes.TrimRight b cutset).
  - rewrite IH. destruct (bytes.TrimRight b cutset) eqn:E; [reflexivity|].
    now destruct a.
Qed.

Lemma TrimRight_keeps (p cutset : bytes.t) (b : byte) :
  bytes.mem b cutset = false ->
  bytes.TrimRight (p ++ [b]) cutset = p ++ [b].
Proof.
  intros Hb. rewrite TrimRight_app. simpl. now rewrite Hb.
Qed.

Lemma cut_app (p rest : bytes.t) (d : byte) :
  ~ In d p -> cut d (p ++ d :: rest) = (p ++ [d], Some rest).
Proof.
  induction p as [|x p IH]; simpl; intros Hp.
  - now rewrite byte_eqb_refl.
  - rewrite byte_eqb_neq by (intros ->; apply Hp; now left).
    rewrite IH by (intros H; apply Hp; now right). reflexivity.
Qed.

Lemma cut_shorter (d : byte) (s line rest : bytes.t) :
  cut d s = (line, Some rest) -> List.length rest < List.length s.
Proof.
  revert line. induction s as [|x s IH]; simpl; intros line H.
  - discriminate.
  - destruct (x =? d).
    + injection H as _ <-. lia.
    + destruct (cut d s) as [l r] eqn:E. injection H as _ ->.
      specialize (IH l eq_refl). lia.
Qed.

(** * Facts about traces *)

Lemma settled_snoc (tr : list event) (ev : event) :
  settled (tr ++ [ev]) =
  settled tr && (negb (is_delivery ev) || negb (existsb is_refusal tr)).
Proof.
  induction tr as [|e tr IH]; simpl.
  - destruct (is_refusal ev), (is_delivery ev); reflexivity.
  - destruct (is_refusal e); simpl.
    + rewrite forallb_app. simpl. now rewrite orb_false_r, andb_true_r.
    + exact IH.
Qed.

Lemma refused_snoc (tr : list event) (ev : event) :
  existsb is_refusal (tr ++ [ev]) = existsb is_refusal tr || is_refusal ev.
Proof. rewrite existsb_app. simpl. now rewrite orb_false_r. Qed.

Lemma settled_split (tr1 tr2 : list event) (r : Row) :
  settled (tr1 ++ EvScan false r :: tr2) = true ->
  forall ok r', In (EvScan ok r') tr2 -> ok = false.
Proof.
  induction tr1 as [|e tr1 IH]; simpl.
  - intros H ok r' Hin. rewrite forallb_forall in H.
    specialize (H _ Hin). now destruct ok.
  - destruct (is_refusal e) eqn:E; [|exact IH].
    intros H ok r' Hin. rewrite forallb_forall in H.
    specialize (H (EvScan ok r')). destruct ok; [|reflexivity].
    discriminate H. apply in_or_app. right. now right.
Qed.

(** * What holds in every execution *)

Lemma Inv_init (data : bytes.t) (failure : error) :
  Inv (newRowScanner (mkBody data failure 0 [])).
Proof. constructor; simpl; try easy. Qed.

Ltac inv_cases :=
  repeat (simpl;
    match goal with
    | |- context [if ?x then _ else _] => is_var x; destruct x
    | |- context [match ?x with _ => _ end] => is_var x; destruct x
    | |- context [Unmarshal ?l] => destruct (Unmarshal l) as [? [?|]]
    | |- context [if is_boundary ?l then _ else _] => destruct (is_boundary l)
    end).

Ltac inv_solve :=
  constructor; simpl in *;
  rewrite ?settled_snoc, ?refused_snoc; simpl;
  try solve [ easy | intuition (try congruence; try discriminate; auto)
            | intros; subst; simpl in *; intuition congruence ].

Lemma Inv_step (s : RowScanner) (a : action) : Inv s -> Inv (step s a).
Proof.
  intros [H1 H2 H3 H4 H5 H6 H7 H8 H9 H10 H11].
  destruct s as [b rw q rs e pc cs pn tr rd ew].
  destruct b as [un fl cl lo].
  unfold step. simpl in *.
  destruct pn; [now constructor|].
  assert (He : e = None \/ pc = Returning \/ pc = Done).
  { destruct e; [right; apply H6; discriminate | now left]. }
  assert (Hr : existsb is_refusal tr = false \/ rs = true \/ q = true).
  { destruct (existsb is_refusal tr); [right; now apply H11 | now left]. }
  clear H6 H11.
  destruct a as [c|c| |]; simpl.
  - unfold readLoop, read_line, ReadBytes, frame, hand_off, deferred,
      scan_returns, at_reader, setErr; simpl.
    destruct pc; simpl in *;
      try (destruct (cut delim un) as [line [rest|]]; simpl);
      inv_cases; simpl in *; subst;
      destruct He as [He|[He|He]]; try discriminate He;
      destruct Hr as [Hr|[Hr|Hr]]; try discriminate Hr;
      subst; inv_solve; rewrite ?Hr, ?H10; simpl; try solve [intuition congruence].
  - unfold Scan, hand_off, scan_returns, at_reader; simpl.
    destruct pc; simpl in *;
      inv_cases; simpl in *; subst;
      destruct He as [He|[He|He]]; try discriminate He;
      destruct Hr as [Hr|[Hr|Hr]]; try discriminate Hr;
      subst; inv_solve; rewrite ?Hr, ?H10; simpl; try solve [intuition congruence].
  - unfold Err, observe; simpl.
    destruct He as [He|[He|He]]; destruct Hr as [Hr|[Hr|Hr]];
      subst; inv_solve; rewrite ?Hr, ?H10; simpl; intuition congruence.
  - unfold Close, observe, scan_returns; simpl.
    destruct pc; simpl in *;
      inv_cases; simpl in *; subst;
      destruct He as [He|[He|He]]; try discriminate He;
      destruct Hr as [Hr|[Hr|Hr]]; try discriminate Hr;
      subst; inv_solve; rewrite ?Hr, ?H10; simpl; intuition congruence.
Qed.

Lemma Inv_run (sched : list action) (s : RowScanner) :
  Inv s -> Inv (run sched s).
Proof.
  revert s. induction sched as [|a sched IH]; intros s Hs; simpl.
  - exact Hs.
  - apply IH. now apply Inv_step.
Qed.

Lemma run_app (sched1 sched2 : list action) (s : RowScanner) :
  run (sched1 ++ sched2) s = run sched2 (run sched1 s).
Proof. unfold run. apply fold_left_app. Qed.

(** Only [Close] closes [quit], and only a [Close] on a closed [quit]
    panics. *)
Lemma step_quit (s : RowScanner) (a : action) :
  (quit (step s a) = true -> quit s = true \/ a = CallClose)
  /\ (panicked (step s a) = true ->
      panicked s = true \/ (quit s = true /\ a = CallClose)).
Proof.
  destruct s as [b rw q rs e pc cs pn tr rd ew].
  unfold step. simpl. destruct pn; [simpl; auto|].
  destruct a as [c|c| |]; simpl.
  - unfold readLoop, read_line, ReadBytes, frame, hand_off, deferred,
      scan_returns, at_reader, setErr; simpl.
    destruct pc; simpl;
      try (destruct (cut delim (unread b)) as [line [rest|]]; simpl);
      inv_cases; simpl; auto; split; intros; try discriminate; auto.
  - unfold Scan, hand_off, scan_returns, at_reader; simpl.
    destruct pc; inv_cases; simpl; auto; split; intros;
      try discriminate; auto.
  - auto.
  - unfold Close, observe, scan_returns; simpl.
    destruct q; simpl; auto.
    destruct cs; simpl; split; intros; try discriminate; auto.
Qed.

Lemma run_quit (sched : list action) (s : RowScanner) :
  (quit (run sched s) = true -> quit s = true \/ 1 <= calls_of_Close sched)
  /\ (panicked (run sched s) = true ->
      panicked s = true \/ (quit s = true /\ 1 <= calls_of_Close sched)
      \/ 2 <= calls_of_Close sched).
Proof.
  revert s. induction sched as [|a sched IH]; intros s; simpl.
  - auto.
  - destruct (IH (step s a)) as [IHq IHp].
    destruct (step_quit s a) as [Hq Hp].
    assert (Hc : a = CallClose ->
                 calls_of_Close (a :: sched) = S (calls_of_Close sched)).
    { intros ->. reflexivity. }
    assert (Hm : calls_of_Close sched <= calls_of_Close (a :: sched)).
    { unfold calls_of_Close. simpl. destruct (is_Close a); simpl; lia. }
    split.
    + intros H. destruct (IHq H) as [H1|H1]; [|right; lia].
      destruct (Hq H1) as [H2|H2]; [now left|right].
      rewrite (Hc H2). lia.
    + intros H. destruct (IHp H) as [H1|[[H1 H1']|H1]].
      * destruct (Hp H1) as [H2|[H2 H3]]; [now left|].
        right. left. split; [exact H2|]. rewrite (Hc H3). lia.
      * destruct (Hq H1) as [H2|H2].
        -- right. left. split; [exact H2|lia].
        -- right. right. rewrite (Hc H2). lia.
      * right. right. lia.
Qed.

(** Once the scan is cancelled every step takes the reader closer to
    its end. *)
Lemma cancelled_step (s : RowScanner) (c : bool) :
  quit s = true -> consumer s = Idle -> not_parked (reader s) ->
  panicked s = false ->
  let s' := step s (Reader c) in
  quit s' = true /\ consumer s' = Idle /\ not_parked (reader s')
  /\ panicked s' = false /\ rank (reader s') <= rank (reader s) - 1.
Proof.
  destruct s as [b rw q rs e pc cs pn tr rd ew]. simpl.
  intros -> -> Hnp ->. unfold step; simpl.
  unfold readLoop, read_line, ReadBytes, frame, hand_off, deferred,
    scan_returns, at_reader, setErr; simpl.
  destruct pc; simpl in *; try contradiction;
    try (destruct (cut delim (unread b)) as [line [rest|]]; simpl);
    inv_cases; simpl; repeat split; lia.
Qed.

(** The reader is over three steps after a cancellation at the latest. *)
Lemma cancelled_reader_ends (s : RowScanner) (c1 c2 c3 : bool) :
  Inv s -> quit s = true -> panicked s = false ->
  reader (run [Reader c1; Reader c2; Reader c3] s) = Done.
Proof.
  intros HI Hq Hp. destruct (inv_quit HI Hq) as [Hc Hnp].
  destruct (cancelled_step s c1 Hq Hc Hnp Hp) as (Hq1 & Hc1 & Hn1 & Hp1 & Hr1).
  destruct (cancelled_step _ c2 Hq1 Hc1 Hn1 Hp1) as (Hq2 & Hc2 & Hn2 & Hp2 & Hr2).
  destruct (cancelled_step _ c3 Hq2 Hc2 Hn2 Hp2) as (_ & _ & _ & _ & Hr3).
  simpl. assert (Hmax : rank (reader s) <= 3) by (destruct (reader s); simpl; lia).
  destruct (reader (step (step (step s (Reader c1)) (Reader c2)) (Reader c3)));
    simpl in *; try reflexivity; lia.
Qed.

Lemma run_panicked (sched : list action) (s : RowScanner) :
  panicked s = true -> run sched s = s.
Proof.
  intros Hp. induction sched as [|a sched IH]; simpl; [reflexivity|].
  replace (step s a) with s; [exact IH|].
  unfold step. now rewrite Hp.
Qed.

(** An error in the slot stays there. *)
Lemma err_kept_step (s : RowScanner) (a : action) (e : error) :
  Inv s -> err s = Some e -> err (step s a) = Some e.
Proof.
  intros HI He.
  assert (Hpc : reader s = Returning \/ reader s = Done).
  { apply (inv_err_pc HI). rewrite He. discriminate. }
  destruct s as [b rw q rs e' pc cs pn tr rd ew]. simpl in *. subst e'.
  unfold step; simpl. destruct pn; [reflexivity|].
  destruct a as [c|c| |]; simpl.
  - unfold readLoop, deferred, scan_returns; simpl.
    destruct Hpc as [-> | ->]; simpl; [|reflexivity]. now destruct cs.
  - unfold Scan, hand_off, scan_returns, at_reader; simpl.
    destruct Hpc as [-> | ->]; inv_cases; reflexivity.
  - reflexivity.
  - unfold Close, observe, scan_returns; simpl. inv_cases; reflexivity.
Qed.


Lemma Scan_panicked (s : RowScanner) (c : bool) :
  panicked (Scan c s) = panicked s.
Proof.
  destruct s as [b rw q rs e pc cs pn tr rd ew].
  unfold Scan, hand_off, scan_returns, at_reader; simpl.
  destruct pc; inv_cases; reflexivity.
Qed.

(** Before any call of [Close], [quit] is open and nothing has
    panicked. *)
Lemma uncancelled_open (sched : list action) (s : RowScanner) :
  calls_of_Close sched = 0 -> quit s = false -> panicked s = false ->
  quit (run sched s) = false /\ panicked (run sched s) = false.
Proof.
  intros Hn Hq Hp. destruct (run_quit sched s) as [H1 H2].
  split.
  - destruct (quit (run sched s)); [|reflexivity].
    destruct (H1 eq_refl); [congruence|lia].
  - destruct (panicked (run sched s)); [|reflexivity].
    destruct (H2 eq_refl) as [?|[[? ?]|?]]; [congruence|lia|lia].
Qed.


(** * The rows of an uncancelled scan *)

Lemma loop_rows_fuel (n m : nat) (failure : error) (data : bytes.t) :
  List.length data < n -> List.length data < m ->
  loop_rows n failure data = loop_rows m failure data.
Proof.
  revert m data. induction n as [|n IH]; intros m data Hn Hm; [lia|].
  destruct m as [|m]; [lia|]. simpl.
  destruct (cut delim data) as [line [rest|]] eqn:Hcut; [|reflexivity].
  apply cut_shorter in Hcut.
  rewrite (IH m rest) by lia. reflexivity.
Qed.

Lemma loop_rows_turn (failure : error) (data : bytes.t) :
  loop_rows (S (List.length data)) failure data =
  let (line, rest) := cut delim data in turn failure line rest.
Proof.
  simpl. destruct (cut delim data) as [line [rest|]] eqn:Hcut; [|reflexivity].
  apply cut_shorter in Hcut. simpl.
  rewrite (@loop_rows_fuel (List.length data) (S (List.length rest))) by lia.
  reflexivity.
Qed.

Lemma scans_snoc (tr : list event) (ev : event) :
  scans (tr ++ [ev]) = scans tr ++ (if is_scan ev then [ev] else []).
Proof. unfold scans. rewrite filter_app. simpl. now destruct (is_scan ev). Qed.

#[local] Arguments loop_rows : simpl never.

Ltac cases :=
  repeat (simpl;
    match goal with
    | |- context [if ?x then _ else _] => is_var x; destruct x
    | |- context [match ?x with _ => _ end] => is_var x; destruct x
    | |- context [Unmarshal ?l] => destruct (Unmarshal l) as [? [?|]]
    | |- context [if is_boundary ?l then _ else _] => destruct (is_boundary l)
    | |- context [if bytes.HasSuffix ?l ?m then _ else _] =>
        destruct (bytes.HasSuffix l m)
    | |- context [let (_, _) := loop_rows ?n ?f ?d in _] =>
        destruct (loop_rows n f d)
    end).

(** A step of an uncancelled scan does one of three things to the
    answers of [Scan] and the rows still to come: nothing; a row goes
    from the latter to the former; or [Scan] fails, and no row was to
    come. *)
Lemma step_pending (s : RowScanner) (a : action) :
  Inv s -> quit s = false -> panicked s = false -> is_Close a = false ->
  let s' := step s a in
  quit s' = false /\ panicked s' = false
  /\ ((scans (trace s') = scans (trace s) /\ pending s' = pending s)
      \/ (exists r,
            scans (trace s') = scans (trace s) ++ [EvScan true r]
            /\ fst (pending s) = r :: fst (pending s')
            /\ snd (pending s') = snd (pending s))
      \/ (scans (trace s') = scans (trace s) ++ [EvScan false Row_zero]
          /\ pending s' = pending s /\ fst (pending s) = [])).
Proof.
  intros [H1 H2 H3 H4 H5 H6 H7 H8 H9 H10 H11] Hq Hp Ha.
  destruct s as [b rw q rs e pc cs pn tr rd ew].
  destruct b as [un fl cl lo].
  simpl in *. subst q pn.
  assert (He : e = None \/ pc = Returning \/ pc = Done).
  { destruct e; [right; apply H6; discriminate | now left]. }
  clear H1 H2 H3 H5 H6 H7 H9 H10 H11.
  unfold step; simpl.
  destruct a as [c|c| |]; simpl; try discriminate Ha.
  - unfold readLoop, read_line, ReadBytes, frame, hand_off, deferred,
      scan_returns, at_reader, setErr, pending,
      loop_of; simpl.
    destruct pc; simpl in *.
    3: rewrite (loop_rows_turn fl un).
    all: try (destruct (cut delim un) as [line [rest|]]; simpl);
      unfold turn;
      destruct He as [He|[He|He]]; try discriminate He; subst;
      cases; simpl; rewrite ?scans_snoc; simpl;
      repeat split; eauto 8.
  - unfold Scan, hand_off, scan_returns, at_reader, pending,
      loop_of; simpl.
    destruct pc; simpl in *;
      destruct He as [He|[He|He]]; try discriminate He; subst;
      cases; simpl; rewrite ?scans_snoc; simpl;
      repeat split; eauto 8.
  - unfold Err, observe; simpl. rewrite scans_snoc; simpl.
    rewrite app_nil_r. auto.
Qed.

Lemma run_pending (sched : list action) (s : RowScanner) :
  Inv s -> quit s = false -> panicked s = false -> uncancelled sched ->
  let s' := run sched s in
  quit s' = false /\ panicked s' = false
  /\ exists delivered m,
      scans (trace s') =
        scans (trace s) ++ map (EvScan true) delivered
          ++ repeat (EvScan false Row_zero) m
      /\ fst (pending s) = delivered ++ fst (pending s')
      /\ snd (pending s') = snd (pending s)
      /\ (0 < m -> fst (pending s') = []).
Proof.
  revert s. induction sched as [|a sched IH]; intros s HI Hq Hp Hu; simpl.
  - repeat split; trivial. exists [], 0. simpl.
    rewrite app_nil_r. repeat split; trivial. lia.
  - inversion Hu as [|? ? Ha Hu']; subst.
    destruct (step_pending a HI Hq Hp Ha) as (Hq1 & Hp1 & Hstep).
    destruct (IH (step s a) (Inv_step a HI) Hq1 Hp1 Hu')
      as (Hq2 & Hp2 & delivered & m & Hsc & Hfst & Hsnd & Hm).
    repeat split; trivial.
    destruct Hstep as [[Hs1 Hs2]|[[r [Hs1 [Hs2 Hs3]]]|[Hs1 [Hs2 Hs3]]]].
    + exists delivered, m. rewrite Hsc, Hs1, Hsnd, Hs2, <- Hfst, Hs2.
      repeat split; trivial.
    + exists (r :: delivered), m. rewrite Hsc, Hs1, Hsnd, Hs3, Hs2, Hfst.
      simpl. rewrite <- app_assoc. repeat split; trivial.
    + rewrite Hs2 in Hfst, Hsnd. rewrite Hs3 in Hfst.
      symmetry in Hfst. apply app_eq_nil in Hfst as [-> Hnil].
      exists [], (S m). rewrite Hsc, Hs1, Hsnd, Hs3, Hnil. simpl.
      rewrite <- app_assoc. repeat split; trivial.
Qed.

(** *** The consumer gets its answer within a round *)

Lemma idle_step (s : RowScanner) (c : bool) :
  consumer s = Idle ->
  let s' := step s (Reader c) in
  consumer s' = Idle /\ trace s' = trace s.
Proof.
  destruct s as [b rw q rs e pc cs pn tr rd ew]. simpl. intros ->.
  unfold step; simpl. destruct pn; [auto|].
  unfold readLoop, read_line, ReadBytes, frame, hand_off, deferred,
    scan_returns, at_reader, setErr; simpl.
  destruct pc; simpl;
    try (destruct (cut delim (unread b)) as [line [rest|]]; simpl);
    cases; auto.
Qed.

Lemma call_step (s : RowScanner) (c : bool) :
  quit s = false -> panicked s = false -> consumer s = Idle ->
  let s' := step s (CallScan c) in
  (consumer s' = Idle
   /\ List.length (scans (trace s')) = S (List.length (scans (trace s))))
  \/ (consumer s' = InScan /\ trace s' = trace s).
Proof.
  destruct s as [b rw q rs e pc cs pn tr rd ew]. simpl. intros -> -> ->.
  unfold step; simpl.
  unfold Scan, hand_off, scan_returns, at_reader; simpl.
  destruct pc; cases; simpl; rewrite ?scans_snoc, ?length_app; simpl;
    auto; left; split; trivial; lia.
Qed.

Lemma answer_step (s : RowScanner) (c : bool) :
  quit s = false -> panicked s = false -> consumer s = InScan ->
  let s' := step s (Reader c) in
  (consumer s' = Idle
   /\ List.length (scans (trace s')) = S (List.length (scans (trace s))))
  \/ (consumer s' = InScan /\ trace s' = trace s
      /\ wait (reader s') < wait (reader s))
  \/ wait (reader s) = 0.
Proof.
  destruct s as [b rw q rs e pc cs pn tr rd ew]. simpl. intros -> -> ->.
  unfold step; simpl.
  unfold readLoop, read_line, ReadBytes, frame, hand_off, deferred,
    scan_returns, at_reader, setErr; simpl.
  destruct pc; simpl;
    try (destruct (cut delim (unread b)) as [line [rest|]]; simpl);
    cases; simpl; rewrite ?scans_snoc, ?length_app; simpl; auto;
    try (left; split; trivial; lia);
    right; left; repeat split; lia.
Qed.

Lemma waiting_moves (s : RowScanner) :
  Inv s -> consumer s = InScan -> 0 < wait (reader s).
Proof.
  intros HI Hc. destruct (inv_waiting HI Hc) as [Hnp Hover].
  destruct (reader s); simpl in *; try lia; try contradiction; discriminate.
Qed.

Lemma round_answers (s : RowScanner) :
  Inv s -> quit s = false -> panicked s = false -> consumer s = Idle ->
  let s' := run round s in
  consumer s' = Idle
  /\ List.length (scans (trace s')) = S (List.length (scans (trace s))).
Proof.
  intros HI Hq Hp Hc. unfold round. simpl.
  set (n := List.length (scans (trace s))).
  set (s0 := step s (CallScan false)).
  assert (H0 : Inv s0 /\ quit s0 = false /\ panicked s0 = false).
  { split; [now apply Inv_step|].
    now destruct (@step_pending s (CallScan false) HI Hq Hp eq_refl) as (? & ? & _). }
  assert (S0 : (consumer s0 = Idle /\ List.length (scans (trace s0)) = S n)
               \/ (consumer s0 = InScan
                   /\ List.length (scans (trace s0)) = n
                   /\ wait (reader s0) <= 4)).
  { destruct (call_step s false Hq Hp Hc) as [H|[H1 H2]]; [now left|right].
    fold s0 in H1, H2. rewrite H2. repeat split; trivial.
    destruct (reader s0); simpl; lia. }
  assert (Hstep : forall d t,
    Inv t /\ quit t = false /\ panicked t = false ->
    (consumer t = Idle /\ List.length (scans (trace t)) = S n)
    \/ (consumer t = InScan /\ List.length (scans (trace t)) = n
        /\ wait (reader t) <= S d) ->
    let t' := step t (Reader false) in
    (Inv t' /\ quit t' = false /\ panicked t' = false)
    /\ ((consumer t' = Idle /\ List.length (scans (trace t')) = S n)
        \/ (consumer t' = InScan /\ List.length (scans (trace t')) = n
            /\ wait (reader t') <= d))).
  { intros d t (HIt & Hqt & Hpt) St. split.
    - split; [now apply Inv_step|].
      now destruct (@step_pending t (Reader false) HIt Hqt Hpt eq_refl)
        as (? & ? & _).
    - destruct St as [[Hct Hlt]|(Hct & Hlt & Hwt)].
      + left. destruct (idle_step t false Hct) as [H1 H2].
        now rewrite H1, H2.
      + pose proof (waiting_moves HIt Hct) as Hpos.
        destruct (answer_step t false Hqt Hpt Hct)
          as [[H1 H2]|[(H1 & H2 & H3)|H1]].
        * left. split; trivial. now rewrite H2, Hlt.
        * right. rewrite H2. repeat split; trivial. lia.
        * lia. }
  destruct (Hstep 3 s0 H0 S0) as [H1 S1].
  destruct (Hstep 2 _ H1 S1) as [H2 S2].
  destruct (Hstep 1 _ H2 S2) as [H3 S3].
  destruct (Hstep 0 _ H3 S3) as [H4 S4].
  destruct S4 as [S4|(Hc4 & _ & Hw4)]; [exact S4|].
  destruct H4 as [HI4 _]. pose proof (waiting_moves HI4 Hc4). lia.
Qed.

(** A round answers [Scan] with the first of the rows still to come, or
    with false when there is none. *)
Lemma round_pending (s : RowScanner) :
  Inv s -> quit s = false -> panicked s = false -> consumer s = Idle ->
  let s' := run round s in
  (Inv s' /\ quit s' = false /\ panicked s' = false /\ consumer s' = Idle)
  /\ snd (pending s') = snd (pending s)
  /\ match fst (pending s) with
     | r :: rs =>
         scans (trace s') = scans (trace s) ++ [EvScan true r]
         /\ fst (pending s') = rs
     | [] =>
         scans (trace s') = scans (trace s) ++ [EvScan false Row_zero]
         /\ fst (pending s') = []
     end.
Proof.
  intros HI Hq Hp Hc s'.
  assert (Hu : uncancelled round) by (repeat constructor).
  destruct (run_pending HI Hq Hp Hu)
    as (Hq' & Hp' & delivered & m & Hsc & Hfst & Hsnd & Hm).
  destruct (round_answers HI Hq Hp Hc) as [Hc' Hlen].
  fold s' in Hq', Hp', Hsc, Hfst, Hsnd, Hm, Hc', Hlen.
  split; [|split; [exact Hsnd|]].
  - split; [now apply Inv_run|auto].
  - rewrite Hsc in Hlen. rewrite !length_app, length_map, repeat_length in Hlen.
    destruct delivered as [|r [|r' delivered]]; simpl in Hlen.
    + assert (m = 1) by lia. subst m. simpl in *.
      assert (Hnil : fst (pending s') = []) by (apply Hm; lia).
      rewrite Hfst, Hnil. auto.
    + assert (m = 0) by lia. subst m. simpl in *.
      rewrite Hfst. auto.
    + lia.
Qed.

Lemma rounds_S (n : nat) : rounds (S n) = round ++ rounds n.
Proof. reflexivity. Qed.

Lemma rounds_refused (m : nat) (s : RowScanner) :
  Inv s -> quit s = false -> panicked s = false -> consumer s = Idle ->
  fst (pending s) = [] ->
  let s' := run (rounds m) s in
  (Inv s' /\ quit s' = false /\ panicked s' = false /\ consumer s' = Idle)
  /\ pending s' = pending s
  /\ scans (trace s') = scans (trace s) ++ repeat (EvScan false Row_zero) m.
Proof.
  revert s. induction m as [|m IH]; intros s HI Hq Hp Hc Hnil.
  - simpl. rewrite app_nil_r. auto.
  - rewrite rounds_S. cbv zeta. rewrite run_app.
    destruct (round_pending HI Hq Hp Hc) as ((HI1 & Hq1 & Hp1 & Hc1) & Hsnd & H).
    rewrite Hnil in H. destruct H as [Hsc Hnil1].
    destruct (IH _ HI1 Hq1 Hp1 Hc1 Hnil1) as (Hcalm & Hpend & Hsc2).
    split; [exact Hcalm|]. split.
    + rewrite Hpend. destruct (pending (run round s)), (pending s).
      simpl in *. congruence.
    + rewrite Hsc2, Hsc, <- app_assoc. reflexivity.
Qed.

(** The consumer loop gets all the rows to come, then false. *)
Lemma rounds_pending (rs : list Row) (m : nat) (s : RowScanner) :
  Inv s -> quit s = false -> panicked s = false -> consumer s = Idle ->
  fst (pending s) = rs ->
  let s' := run (rounds (List.length rs + m)) s in
  (Inv s' /\ quit s' = false /\ panicked s' = false /\ consumer s' = Idle)
  /\ pending s' = ([], snd (pending s))
  /\ scans (trace s') =
       scans (trace s) ++ map (EvScan true) rs
         ++ repeat (EvScan false Row_zero) m.
Proof.
  revert s. induction rs as [|r rs IH]; intros s HI Hq Hp Hc Hrs.
  - destruct (rounds_refused m HI Hq Hp Hc Hrs) as (Hcalm & Hpend & Hsc).
    split; [exact Hcalm|]. split; [|exact Hsc].
    cbn [List.length Nat.add]. rewrite Hpend. destruct (pending s).
    simpl in *. now subst.
  - cbn [List.length Nat.add]. rewrite rounds_S. cbv zeta. rewrite run_app.
    destruct (round_pending HI Hq Hp Hc) as ((HI1 & Hq1 & Hp1 & Hc1) & Hsnd & H).
    rewrite Hrs in H. destruct H as [Hsc Hrs1].
    destruct (IH _ HI1 Hq1 Hp1 Hc1 Hrs1) as (Hcalm & Hpend & Hsc2).
    split; [exact Hcalm|]. split.
    + now rewrite Hpend, Hsnd.
    + rewrite Hsc2, Hsc, <- app_assoc. reflexivity.
Qed.

(** *** Traces of reader steps and calls of [Scan] *)

Lemma scanning_step (s : RowScanner) (a : action) :
  is_scanning a = true -> scans (trace s) = trace s ->
  scans (trace (step s a)) = trace (step s a).
Proof.
  destruct s as [b rw q rs e pc cs pn tr rd ew]. simpl. intros Ha Htr.
  unfold step; simpl. destruct pn; [exact Htr|].
  destruct a as [c|c| |]; try discriminate Ha; simpl.
  - unfold readLoop, read_line, ReadBytes, frame, hand_off, deferred,
      scan_returns, at_reader, setErr; simpl.
    destruct pc; simpl;
      try (destruct (cut delim (unread b)) as [line [rest|]]; simpl);
      cases; simpl; rewrite ?scans_snoc, ?Htr; reflexivity.
  - unfold Scan, hand_off, scan_returns, at_reader; simpl.
    destruct pc; cases; simpl; rewrite ?scans_snoc, ?Htr; reflexivity.
Qed.

Lemma scanning_run (sched : list action) (s : RowScanner) :
  forallb is_scanning sched = true -> scans (trace s) = trace s ->
  scans (trace (run sched s)) = trace (run sched s).
Proof.
  revert s. induction sched as [|a sched IH]; intros s Hs Htr; simpl.
  - exact Htr.
  - simpl in Hs. apply andb_true_iff in Hs as [Ha Hs].
    apply IH; [exact Hs|]. now apply scanning_step.
Qed.

Lemma rounds_scanning (n : nat) : forallb is_scanning (rounds n) = true.
Proof. induction n as [|n IH]; simpl; [reflexivity|exact IH]. Qed.

Lemma rounds_uncancelled (n : nat) : uncancelled (rounds n).
Proof.
  induction n as [|n IH]; simpl; [constructor|].
  repeat (constructor; [reflexivity|]). exact IH.
Qed.

(** After a failed [Scan] of an uncancelled scan the reader is over, and
    the slot holds the error the loop was to end with. *)
Lemma refused_err (s : RowScanner) :
  Inv s -> quit s = false -> existsb is_refusal (trace s) = true ->
  reader s = Done /\ err s = snd (pending s).
Proof.
  intros HI Hq Href.
  destruct (inv_refused HI Href) as [Hrows|Hquit]; [|congruence].
  rewrite (inv_rows HI) in Hrows. unfold pending.
  destruct (reader s); try discriminate Hrows. auto.
Qed.

(** *** The rows delivered, cancelled or not *)

Lemma deliveries_app (tr1 tr2 : list event) :
  deliveries (tr1 ++ tr2) = deliveries tr1 ++ deliveries tr2.
Proof.
  induction tr1 as [|ev tr1 IH]; simpl; [reflexivity|].
  destruct ev as [[|] r| | |]; simpl; now rewrite IH.
Qed.

Lemma deliveries_scans (tr : list event) :
  deliveries (scans tr) = deliveries tr.
Proof.
  induction tr as [|ev tr IH]; simpl; [reflexivity|].
  destruct ev as [[|] r| | |]; simpl; now rewrite IH.
Qed.

(** Nothing is delivered once [quit] is closed, and [quit] stays
    closed. *)
Lemma cancelled_delivers_nothing (s : RowScanner) (a : action) :
  Inv s -> quit s = true ->
  deliveries (trace (step s a)) = deliveries (trace s)
  /\ quit (step s a) = true.
Proof.
  intros HI Hq. destruct (inv_quit HI Hq) as [Hc Hnp].
  pose proof (inv_rows HI) as Hrows.
  destruct s as [b rw q rs e pc cs pn tr rd ew]. simpl in *. subst q cs.
  unfold step; simpl. destruct pn; [auto|].
  destruct a as [c|c| |]; simpl.
  - unfold readLoop, read_line, ReadBytes, frame, hand_off, deferred,
      scan_returns, at_reader, setErr; simpl.
    destruct pc; simpl in *; try contradiction;
      try (destruct (cut delim (unread b)) as [line [rest|]]; simpl);
      cases; auto.
  - unfold Scan, hand_off, scan_returns, at_reader; simpl.
    destruct pc; simpl in *; try contradiction;
      cases; simpl; rewrite ?deliveries_app; simpl;
      rewrite ?app_nil_r; auto.
  - unfold Err, observe; simpl. rewrite deliveries_app. simpl.
    now rewrite app_nil_r.
  - unfold Close; simpl. rewrite deliveries_app. simpl.
    now rewrite app_nil_r.
Qed.

Lemma Close_delivers_nothing (s : RowScanner) :
  quit s = false -> panicked s = false ->
  deliveries (trace (step s CallClose)) = deliveries (trace s)
  /\ quit (step s CallClose) = true.
Proof.
  destruct s as [b rw q rs e pc cs pn tr rd ew]. simpl. intros -> ->.
  unfold step, Close, observe, scan_returns; simpl.
  destruct cs; simpl; rewrite !deliveries_app; simpl;
    rewrite ?app_nil_r; auto.
Qed.

(** In every execution the rows delivered so far are the first of the
    rows the loop was to hand over. *)
Lemma deliveries_prefix (sched : list action) (s : RowScanner) (total : list Row) :
  Inv s ->
  (exists rest, total = deliveries (trace s) ++ rest
     /\ (quit s = false -> panicked s = false -> rest = fst (pending s))) ->
  exists rest, total = deliveries (trace (run sched s)) ++ rest.
Proof.
  revert s. induction sched as [|a sched IH]; intros s HI (rest & Htot & Hrest).
  - now exists rest.
  - simpl. apply IH; [now apply Inv_step|].
    destruct (panicked s) eqn:Hp.
    { unfold step. rewrite Hp. exists rest. split; [exact Htot|].
      intros _ Hp'. congruence. }
    destruct (quit s) eqn:Hq.
    { destruct (cancelled_delivers_nothing a HI Hq) as [Hd Hq'].
      exists rest. rewrite Hd. split; [exact Htot|]. congruence. }
    specialize (Hrest eq_refl eq_refl). subst rest.
    destruct (is_Close a) eqn:Ha.
    { destruct a; try discriminate Ha.
      destruct (Close_delivers_nothing s Hq Hp) as [Hd Hq'].
      exists (fst (pending s)). rewrite Hd. split; [exact Htot|]. congruence. }
    destruct (step_pending a HI Hq Hp Ha) as (Hq' & Hp' & Hstep).
    rewrite <- (deliveries_scans (trace (step s a))).
    destruct Hstep as [[Hs1 Hs2]|[[r [Hs1 [Hs2 Hs3]]]|[Hs1 [Hs2 Hs3]]]];
      rewrite Hs1, ?deliveries_app, deliveries_scans; simpl.
    + exists (fst (pending s)). split; [exact Htot|]. now rewrite Hs2.
    + exists (fst (pending (step s a))). rewrite <- app_assoc. simpl.
      split; [now rewrite <- Hs2|reflexivity].
    + exists (fst (pending s)). rewrite app_nil_r. split; [exact Htot|].
      now rewrite Hs2.
Qed.

(** *** The rows of a well-formed body *)

Lemma ends_with_brace (p : bytes.t) :
  bytes.HasSuffix p ["}"] = true -> exists q, p = q ++ ["}"].
Proof. intros H. now apply HasSuffix_iff in H. Qed.

Lemma row_line_framed (p : bytes.t) (r : Row) (more : bytes.t) :
  payload_of p r ->
  cut delim (row_line p ++ more) = (row_line p, Some more)
  /\ is_boundary (row_line p) = false
  /\ bytes.TrimRight (row_line p) [","; CR; LF] = p
  /\ bytes.HasSuffix (row_line p) endMarker = false.
Proof.
  intros (Hdec & Hlf & Hbrace).
  destruct (ends_with_brace p Hbrace) as [q ->].
  unfold row_line. repeat split.
  - change ((q ++ ["}"]) ++ [","; CR; LF]) with ((q ++ ["}"]) ++ [","; CR] ++ [LF]).
    rewrite app_assoc, <- app_assoc. apply cut_app.
    intros Hin. apply in_app_or in Hin as [Hin|Hin]; [now apply Hlf|].
    simpl in Hin. destruct Hin as [Hin|[Hin|[]]]; discriminate Hin.
  - unfold is_boundary. apply orb_false_iff. split; apply Equal_neq;
      intros H; apply (f_equal (@rev byte)) in H;
      rewrite !rev_app_distr in H; simpl in H; discriminate H.
  - rewrite TrimRight_app. simpl. now apply TrimRight_keeps.
  - destruct (bytes.HasSuffix _ endMarker) eqn:E; [|reflexivity].
    apply HasSuffix_iff in E as [q' H]. apply (f_equal (@rev byte)) in H.
    rewrite !rev_app_distr in H. simpl in H. discriminate H.
Qed.

Lemma last_line_framed (p : bytes.t) (r : Row) (more : bytes.t) :
  payload_of p r ->
  cut delim (last_line p ++ more) = (last_line p, Some more)
  /\ is_boundary (last_line p) = false
  /\ bytes.TrimRight (last_line p) [","; CR; LF] = p
  /\ bytes.HasSuffix (last_line p) endMarker = true.
Proof.
  intros (Hdec & Hlf & Hbrace).
  destruct (ends_with_brace p Hbrace) as [q ->].
  unfold last_line. repeat split.
  - change ((q ++ ["}"]) ++ [CR; LF]) with ((q ++ ["}"]) ++ [CR] ++ [LF]).
    rewrite app_assoc, <- app_assoc. apply cut_app.
    intros Hin. apply in_app_or in Hin as [Hin|Hin]; [now apply Hlf|].
    simpl in Hin. destruct Hin as [Hin|[]]; discriminate Hin.
  - unfold is_boundary. apply orb_false_iff. split; apply Equal_neq;
      intros H; apply (f_equal (@rev byte)) in H;
      rewrite !rev_app_distr in H; simpl in H; discriminate H.
  - rewrite TrimRight_app. simpl. now apply TrimRight_keeps.
  - apply HasSuffix_iff. exists q. unfold endMarker.
    now rewrite <- app_assoc.
Qed.

Lemma loop_row_lines (ps : list bytes.t) (rs : list Row)
      (failure : error) (more : bytes.t) :
  Forall2 payload_of ps rs ->
  loop_rows (S (List.length (List.concat (map row_line ps) ++ more))) failure
            (List.concat (map row_line ps) ++ more) =
  let (rs', e) := loop_rows (S (List.length more)) failure more in
  (rs ++ rs', e).
Proof.
  induction 1 as [|p r ps rs Hp _ IH].
  - simpl List.concat. simpl app.
    now destruct (loop_rows (S (List.length more)) failure more).
  - simpl List.concat. simpl map. rewrite <- app_assoc.
    destruct (row_line_framed (List.concat (map row_line ps) ++ more) Hp)
      as (Hcut & Hb & Ht & Hs).
    rewrite loop_rows_turn, Hcut. unfold turn.
    rewrite Hb, Ht, Hs. destruct Hp as (Hdec & _). rewrite Hdec, IH.
    now destruct (loop_rows (S (List.length more)) failure more).
Qed.

Lemma loop_ending (ending : bytes.t) (rs : list Row)
      (failure : error) (tail : bytes.t) :
  ending_of ending rs ->
  loop_rows (S (List.length (ending ++ tail))) failure (ending ++ tail) =
  (rs, None).
Proof.
  intros [p r Hp|token Htok].
  - destruct (last_line_framed tail Hp) as (Hcut & Hb & Ht & Hs).
    unfold last_line in *.
    rewrite loop_rows_turn, Hcut. unfold turn.
    rewrite Hb, Ht, Hs. destruct Hp as (Hdec & _). now rewrite Hdec.
  - rewrite loop_rows_turn.
    assert (Hcut : cut delim (token ++ tail) = (token, Some tail)).
    { unfold is_boundary in Htok. apply orb_true_iff in Htok as [H|H];
        apply Equal_eq in H; subst token.
      - apply (cut_app ["}"; "]"; CR] tail).
        simpl. intros [H|[H|[H|[]]]]; discriminate H.
      - apply (cut_app [CR] tail).
        simpl. intros [H|[]]; discriminate H. }
    rewrite Hcut. unfold turn. now rewrite Htok.
Qed.

(** A line that does not decode ends the loop with the decoder's error. *)
Lemma loop_undecodable (bad : bytes.t) (e : error)
      (failure : error) (tail : bytes.t) :
  ~ In LF bad -> is_boundary (bad ++ [LF]) = false ->
  snd (Unmarshal (bytes.TrimRight (bad ++ [LF]) [","; CR; LF])) = Some e ->
  loop_rows (S (List.length ((bad ++ [LF]) ++ tail))) failure
            ((bad ++ [LF]) ++ tail) = ([], Some e).
Proof.
  intros Hlf Hb He. rewrite loop_rows_turn.
  rewrite <- app_assoc.
  change (bad ++ [LF] ++ tail) with (bad ++ delim :: tail).
  rewrite (cut_app bad tail delim Hlf).
  unfold turn, delim. rewrite Hb.
  destruct (Unmarshal _) as [r o]. simpl in He. now subst o.
Qed.

Lemma pending_header (header rest : bytes.t) (failure : error) :
  ~ In LF header ->
  pending (newRowScanner (mkBody (header ++ [LF] ++ rest) failure 0 [])) =
  loop_rows (S (List.length rest)) failure rest.
Proof.
  intros Hh. unfold pending, newRowScanner. simpl reader. cbv iota.
  simpl resp_Body. simpl unread. simpl fail.
  change (header ++ LF :: rest) with (header ++ delim :: rest).
  now rewrite (cut_app header rest delim Hh).
Qed.

(** *** What the consumer sees of a scan *)

Lemma firstn_repeat (A : Type) (x : A) (m n : nat) :
  firstn m (repeat x (m + n)) = repeat x m.
Proof. induction m as [|m IH]; simpl; [reflexivity|now rewrite IH]. Qed.

Lemma answers_prefix (delivered rest : list Row) (m : nat) :
  (0 < m -> rest = []) ->
  exists k,
    map (EvScan true) delivered ++ repeat (EvScan false Row_zero) m =
    firstn k (map (EvScan true) (delivered ++ rest)
                ++ repeat (EvScan false Row_zero) k).
Proof.
  intros Hm. destruct m as [|m].
  - exists (List.length delivered). simpl. rewrite app_nil_r, map_app.
    rewrite <- app_assoc, firstn_app, length_map, Nat.sub_diag. simpl.
    rewrite app_nil_r. rewrite <- (length_map (EvScan true) delivered).
    now rewrite firstn_all.
  - rewrite (Hm (Nat.lt_0_succ m)), app_nil_r.
    exists (List.length delivered + S m).
    rewrite firstn_app, length_map.
    replace (List.length delivered + S m - List.length delivered) with (S m)
      by lia.
    rewrite firstn_all2 by (rewrite length_map; lia).
    rewrite (Nat.add_comm (List.length delivered)).
    now rewrite firstn_repeat.
Qed.

(** The consumer loop on a fresh scanner: the rows the loop hands over,
    then false for every further call, and [Err] gives the error the loop
    ended with. *)
Lemma consumer_loop_trace (b : Body) (rs : list Row) (oe : option error)
      (m : nat) :
  closed b = 0 -> lost b = [] ->
  pending (newRowScanner b) = (rs, oe) ->
  trace (run (rounds (List.length rs + S m) ++ [CallErr]) (newRowScanner b)) =
  map (EvScan true) rs ++ repeat (EvScan false Row_zero) (S m) ++ [EvErr oe].
Proof.
  intros Hc Hl Hpend. destruct b as [un fl cl lo]. simpl in Hc, Hl. subst.
  set (s0 := newRowScanner (mkBody un fl 0 [])) in *.
  assert (HI : Inv s0) by apply Inv_init.
  assert (Hfst : fst (pending s0) = rs) by now rewrite Hpend.
  destruct (@rounds_pending rs (S m) s0 HI eq_refl eq_refl eq_refl Hfst)
    as ((HI' & Hq' & Hp' & _) & Hpend' & Hsc).
  rewrite run_app.
  set (s' := run (rounds (List.length rs + S m)) s0) in *.
  assert (Htr : trace s' = map (EvScan true) rs
                           ++ repeat (EvScan false Row_zero) (S m)).
  { assert (Hscan : scans (trace s') = trace s').
    { apply scanning_run; [apply rounds_scanning|reflexivity]. }
    rewrite <- Hscan. exact Hsc. }
  assert (Herr : err s' = oe).
  { destruct (@refused_err s' HI' Hq') as [_ He].
    - rewrite Htr, existsb_app. simpl. apply orb_true_r.
    - rewrite He, Hpend', Hpend. reflexivity. }
  simpl. unfold step. rewrite Hp'. unfold Err, observe. simpl.
  now rewrite Htr, Herr, <- app_assoc.
Qed.

(** The consumer loop ends the reader, whatever the body holds. *)
Lemma consumer_loop_ends (data : bytes.t) (failure : error) :
  let s0 := newRowScanner (mkBody data failure 0 []) in
  reader (run (rounds (S (List.length (fst (pending s0))))) s0) = Done.
Proof.
  intros s0. rewrite <- Nat.add_1_r.
  destruct (@rounds_pending (fst (pending s0)) 1 s0 (Inv_init data failure)
              eq_refl eq_refl eq_refl eq_refl)
    as ((HI' & Hq' & _ & _) & _ & Hsc).
  set (s' := run (rounds (List.length (fst (pending s0)) + 1)) s0) in *.
  assert (Hscan : scans (trace s') = trace s').
  { apply scanning_run; [apply rounds_scanning|reflexivity]. }
  destruct (@refused_err s' HI' Hq') as [Hdone _]; [|exact Hdone].
  rewrite <- Hscan, Hsc, !existsb_app. simpl. now rewrite !orb_true_r.
Qed.

(** Whatever the interleaving of an uncancelled scan, the answers of
    [Scan] are the first of: the rows the loop hands over, then false
    for ever. *)
Lemma uncancelled_answers (b : Body) (rs : list Row) (oe : option error)
      (sched : list action) :
  closed b = 0 -> lost b = [] ->
  pending (newRowScanner b) = (rs, oe) ->
  uncancelled sched ->
  exists k,
    scans (trace (run sched (newRowScanner b))) =
    firstn k (map (EvScan true) rs ++ repeat (EvScan false Row_zero) k).
Proof.
  intros Hc Hl Hpend Hu. destruct b as [un fl cl lo]. simpl in Hc, Hl. subst.
  set (s0 := newRowScanner (mkBody un fl 0 [])) in *.
  destruct (@run_pending sched s0 (Inv_init un fl) eq_refl eq_refl Hu)
    as (_ & _ & delivered & m & Hsc & Hfst & _ & Hm).
  rewrite Hpend in Hfst. simpl in Hfst, Hsc. rewrite Hsc, Hfst.
  now apply answers_prefix.
Qed.

(** Cancelled or not, what is delivered are the first of those rows. *)
Lemma delivered_prefix (b : Body) (rs : list Row) (oe : option error)
      (sched : list action) :
  closed b = 0 -> lost b = [] ->
  pending (newRowScanner b) = (rs, oe) ->
  exists k, deliveries (trace (run sched (newRowScanner b))) = firstn k rs.
Proof.
  intros Hc Hl Hpend. destruct b as [un fl cl lo]. simpl in Hc, Hl. subst.
  set (s0 := newRowScanner (mkBody un fl 0 [])) in *.
  destruct (@deliveries_prefix sched s0 rs (Inv_init un fl)) as [rest Hrest].
  - exists rs. split; [reflexivity|]. intros _ _. now rewrite Hpend.
  - exists (List.length (deliveries (trace (run sched s0)))).
    rewrite Hrest. rewrite firstn_app, Nat.sub_diag, firstn_all.
    simpl. now rewrite app_nil_r.
Qed.

(** The rows of a body in the wire format. *)
Lemma pending_response (header : bytes.t) (ps : list bytes.t) (rs : list Row)
      (ending : bytes.t) (e : option error) (rs' : list Row)
      (tail : bytes.t) (failure : error) :
  ~ In LF header ->
  Forall2 payload_of ps rs ->
  loop_rows (S (List.length (ending ++ tail))) failure (ending ++ tail) =
    (rs', e) ->
  pending (newRowScanner
             (mkBody (response header ps ending tail) failure 0 [])) =
  (rs ++ rs', e).
Proof.
  intros Hh Hps Hend. unfold response.
  rewrite (pending_header header _ failure Hh).
  rewrite (loop_row_lines failure (ending ++ tail) Hps).
  now rewrite Hend.
Qed.

(** *** The last-row marker *)

Lemma stopping_step (s : RowScanner) (a : action) :
  stopping (reader s) = true ->
  stopping (reader (step s a)) = true /\ reads (step s a) = reads s.
Proof.
  destruct s as [b rw q rs e pc cs pn tr rd ew]. simpl. intros Hst.
  unfold step; simpl. destruct pn; [auto|].
  destruct a as [c|c| |]; simpl.
  - unfold readLoop, hand_off, deferred, scan_returns, at_reader; simpl.
    destruct pc as [| | |r [|]|r [|]| |]; try discriminate Hst;
      cases; auto.
  - unfold Scan, hand_off, scan_returns, at_reader; simpl.
    destruct pc as [| | |r [|]|r [|]| |]; try discriminate Hst;
      cases; auto.
  - auto.
  - unfold Close, observe, scan_returns; simpl.
    destruct pc as [| | |r [|]|r [|]| |]; try discriminate Hst;
      cases; auto.
Qed.

Lemma stopping_run (sched : list action) (s : RowScanner) :
  stopping (reader s) = true -> reads (run sched s) = reads s.
Proof.
  revert s. induction sched as [|a sched IH]; intros s Hst; simpl.
  - reflexivity.
  - destruct (stopping_step s a Hst) as [Hst' Hr]. now rewrite IH.
Qed.

(** A reader step changes nothing for a reader that is parked or over,
    and an idle consumer sees nothing of it. *)
Lemma reads_step (s : RowScanner) (c : bool) :
  panicked s = false ->
  reads (step s (Reader c)) =
  match reader s with
  | AtHeader | AtRead => S (reads s)
  | _ => reads s
  end.
Proof.
  destruct s as [b rw q rs e pc cs pn tr rd ew]. simpl. intros ->.
  unfold step; simpl.
  unfold readLoop, read_line, ReadBytes, frame, hand_off, deferred,
    scan_returns, at_reader, setErr; simpl.
  destruct pc; simpl;
    try (destruct (cut delim (unread b)) as [line [rest|]]; simpl);
    cases; reflexivity.
Qed.

Lemma after_read (s : RowScanner) (c : bool) :
  panicked s = false -> reader s = AtRead ->
  panicked (step s (Reader c)) = false
  /\ match reader (step s (Reader c)) with
     | AtSend _ _ | Returning => True
     | _ => False
     end.
Proof.
  destruct s as [b rw q rs e pc cs pn tr rd ew]. simpl. intros -> ->.
  unfold step; simpl.
  unfold readLoop, read_line, ReadBytes, frame, at_reader, setErr; simpl.
  destruct (cut delim (unread b)) as [line [rest|]]; simpl; cases;
    simpl; auto.
Qed.

(** The round that starts when the reader has just framed a row: the
    consumer's [Scan] gets the row. *)
Lemma round_at_send (s : RowScanner) (r : Row) (last : bool) :
  reader s = AtSend r last -> consumer s = Idle -> quit s = false ->
  panicked s = false -> rows s = false ->
  let s2 := step (step s (CallScan false)) (Reader false) in
  trace s2 = trace s ++ [EvScan true r]
  /\ consumer s2 = Idle /\ panicked s2 = false /\ quit s2 = false
  /\ reads s2 = reads s
  /\ reader s2 = if last then Returning else AtPoll.
Proof.
  destruct s as [b rw q rs e pc cs pn tr rd ew]. simpl.
  intros -> -> -> -> ->. unfold step; simpl. now destruct last.
Qed.

(** * Further facts about executions *)

Lemma cut_none (d : byte) (s : bytes.t) : ~ In d s -> cut d s = (s, None).
Proof.
  induction s as [|x s IH]; simpl; intros Hs; [reflexivity|].
  rewrite byte_eqb_neq by (intros ->; apply Hs; now left).
  rewrite IH by (intros H; apply Hs; now right). reflexivity.
Qed.

(** Once [quit] is closed nothing is delivered, whatever runs. *)
Lemma cancelled_run (sched : list action) (s : RowScanner) :
  Inv s -> quit s = true ->
  deliveries (trace (run sched s)) = deliveries (trace s).
Proof.
  revert s. induction sched as [|a sched IH]; intros s HI Hq; simpl.
  - reflexivity.
  - destruct (cancelled_delivers_nothing a HI Hq) as [Hd Hq'].
    rewrite IH; [exact Hd|now apply Inv_step|exact Hq'].
Qed.

Lemma Close_then_nothing (sched : list action) (s : RowScanner) :
  Inv s ->
  deliveries (trace (run (CallClose :: sched) s)) = deliveries (trace s).
Proof.
  intros HI. simpl.
  destruct (panicked s) eqn:Hp.
  { replace (step s CallClose) with s by (unfold step; now rewrite Hp).
    now rewrite run_panicked. }
  assert (HI' : Inv (step s CallClose)) by now apply Inv_step.
  destruct (quit s) eqn:Hq.
  - destruct (cancelled_delivers_nothing CallClose HI Hq) as [Hd Hq'].
    now rewrite cancelled_run.
  - destruct (Close_delivers_nothing s Hq Hp) as [Hd Hq'].
    now rewrite cancelled_run.
Qed.

(** With an error in the slot the reader has left its loop: nothing is
    delivered any more. *)
Lemma failed_step (s : RowScanner) (a : action) :
  Inv s -> err s <> None ->
  deliveries (trace (step s a)) = deliveries (trace s)
  /\ err (step s a) <> None.
Proof.
  intros HI He. pose proof (inv_err_pc HI He) as Hpc.
  destruct (err s) as [e|] eqn:Herr; [|congruence].
  split; [|rewrite (err_kept_step a HI Herr); discriminate].
  clear He HI. destruct s as [b rw q rs e' pc cs pn tr rd ew]. simpl in *.
  unfold step; simpl. destruct pn; [reflexivity|].
  destruct a as [c|c| |]; simpl.
  - unfold readLoop, deferred, scan_returns; simpl.
    destruct Hpc as [-> | ->]; simpl; [|reflexivity].
    destruct cs; simpl; rewrite ?deliveries_app; simpl;
      rewrite ?app_nil_r; reflexivity.
  - unfold Scan, hand_off, scan_returns, at_reader; simpl.
    destruct Hpc as [-> | ->]; cases; simpl; rewrite ?deliveries_app; simpl;
      rewrite ?app_nil_r; reflexivity.
  - unfold Err, observe; simpl. rewrite deliveries_app. simpl.
    now rewrite app_nil_r.
  - unfold Close, observe, scan_returns; simpl.
    destruct q, cs; simpl; rewrite ?deliveries_app; simpl;
      rewrite ?app_nil_r; reflexivity.
Qed.

Lemma failed_run (sched : list action) (s : RowScanner) :
  Inv s -> err s <> None ->
  deliveries (trace (run sched s)) = deliveries (trace s).
Proof.
  revert s. induction sched as [|a sched IH]; intros s HI He; simpl.
  - reflexivity.
  - destruct (failed_step a HI He) as [Hd He'].
    rewrite IH; [exact Hd|now apply Inv_step|exact He'].
Qed.

(** The reader runs at most one row line ahead of the consumer. *)
Lemma ahead_step (s : RowScanner) (a : action) : ahead s -> ahead (step s a).
Proof.
  destruct s as [b rw q rs e pc cs pn tr rd ew]. unfold ahead. simpl.
  intros H. unfold step; simpl. destruct pn; [exact H|].
  destruct a as [c|c| |]; simpl.
  - unfold readLoop, read_line, ReadBytes, frame, hand_off, deferred,
      scan_returns, at_reader, setErr; simpl.
    destruct pc; simpl in *;
      try (destruct (cut delim (unread b)) as [line [rest|]]; simpl);
      cases; simpl; rewrite ?deliveries_app, ?length_app; simpl; lia.
  - unfold Scan, hand_off, scan_returns, at_reader; simpl.
    destruct pc; cases; simpl; rewrite ?deliveries_app, ?length_app; simpl;
      lia.
  - unfold Err, observe; simpl. rewrite deliveries_app, length_app. simpl.
    rewrite Nat.add_0_r. exact H.
  - unfold Close, observe, scan_returns; simpl.
    destruct q, pc, cs; simpl in *;
      rewrite ?deliveries_app, ?length_app; simpl; lia.
Qed.

Lemma ahead_run (sched : list action) (s : RowScanner) :
  ahead s -> ahead (run sched s).
Proof.
  revert s. induction sched as [|a sched IH]; intros s H; simpl.
  - exact H.
  - apply IH. now apply ahead_step.
Qed.

(** A body that ends inside a line, or before one, ends the loop with the
    body's error. *)
Lemma loop_cut (partial : bytes.t) (failure : error) :
  ~ In LF partial ->
  loop_rows (S (List.length partial)) failure partial = ([], Some failure).
Proof.
  intros Hlf. rewrite loop_rows_turn.
  now rewrite (cut_none delim partial Hlf).
Qed.

Lemma pending_headless (data : bytes.t) (failure : error) :
  ~ In LF data ->
  pending (newRowScanner (mkBody data failure 0 [])) = ([], Some failure).
Proof.
  intros Hlf. unfold pending, newRowScanner. simpl.
  now rewrite (cut_none delim data Hlf).
Qed.

Lemma In_firstn (A : Type) (x : A) (k : nat) (l : list A) :
  In x (firstn k l) -> In x l.
Proof.
  intros H. rewrite <- (firstn_skipn k l). apply in_or_app. now left.
Qed.

(** In an uncancelled scan a [Scan] that fails leaves the zero row. *)
Lemma refusal_is_zero (b : Body) (sched : list action) (r : Row) :
  closed b = 0 -> lost b = [] -> uncancelled sched ->
  In (EvScan false r) (trace (run sched (newRowScanner b))) -> r = Row_zero.
Proof.
  intros Hc Hl Hu Hin.
  destruct (pending (newRowScanner b)) as [rs oe] eqn:Hpend.
  destruct (@uncancelled_answers b rs oe sched Hc Hl Hpend Hu) as [k Hk].
  assert (Hs : In (EvScan false r) (scans (trace (run sched (newRowScanner b))))).
  { apply filter_In. now split. }
  rewrite Hk in Hs. apply In_firstn in Hs. apply in_app_or in Hs as [Hs|Hs].
  - apply in_map_iff in Hs as (x & Hx & _). discriminate Hx.
  - apply repeat_spec in Hs. now injection Hs.
Qed.

(** *** Row lines with other separators *)

Lemma TrimRight_all (s cutset : bytes.t) :
  Forall (fun b => bytes.mem b cutset = true) s ->
  bytes.TrimRight s cutset = [].
Proof.
  induction 1 as [|b s Hb _ IH]; simpl; [reflexivity|].
  now rewrite IH, Hb.
Qed.

Lemma loose_line_framed (p sep : bytes.t) (r : Row) (more : bytes.t) :
  payload_of p r -> separator sep ->
  cut delim (loose_line (p, sep) ++ more) = (loose_line (p, sep), Some more)
  /\ is_boundary (loose_line (p, sep)) = false
  /\ bytes.TrimRight (loose_line (p, sep)) [","; CR; LF] = p
  /\ bytes.HasSuffix (loose_line (p, sep)) endMarker = false.
Proof.
  intros (Hdec & Hlf & Hbrace) (Hsep & Hnot).
  destruct (ends_with_brace p Hbrace) as [q ->].
  assert (Hrev : Forall (fun b => b = "," \/ b = CR) (rev sep))
    by now apply Forall_rev.
  unfold loose_line. simpl fst. simpl snd. repeat split.
  - replace (((q ++ ["}"]) ++ sep ++ [LF]) ++ more)
      with (((q ++ ["}"]) ++ sep) ++ delim :: more)
      by (rewrite <- !app_assoc; reflexivity).
    replace ((q ++ ["}"]) ++ sep ++ [LF])
      with (((q ++ ["}"]) ++ sep) ++ [delim])
      by (now rewrite <- app_assoc).
    apply cut_app.
    intros Hin. apply in_app_or in Hin as [Hin|Hin]; [now apply Hlf|].
    rewrite Forall_forall in Hsep. destruct (Hsep _ Hin); discriminate.
  - unfold is_boundary. apply orb_false_iff. split; apply Equal_neq;
      intros H; apply (f_equal (@rev byte)) in H;
      rewrite !rev_app_distr in H; simpl in H; injection H as H;
      destruct (rev sep) as [|x [|y t]]; simpl in H;
      try discriminate H;
      inversion Hrev as [|? ? _ Hrev']; subst;
      inversion Hrev' as [|? ? Hy _]; subst;
      injection H as _ Hy'; destruct Hy; subst; discriminate.
  - rewrite TrimRight_app.
    rewrite (@TrimRight_all (sep ++ [LF]) [","; CR; LF]).
    + now apply TrimRight_keeps.
    + apply Forall_app. split; [|now repeat constructor].
      eapply Forall_impl; [|exact Hsep]. intros b [-> | ->]; reflexivity.
  - destruct (bytes.HasSuffix _ endMarker) eqn:E; [|reflexivity].
    apply HasSuffix_iff in E as [q' H]. apply (f_equal (@rev byte)) in H.
    rewrite !rev_app_distr in H. simpl in H. injection H as H.
    destruct (rev sep) as [|x [|y t]] eqn:Hs; simpl in H.
    + discriminate H.
    + injection H as Hx _. subst x. exfalso. apply Hnot.
      rewrite <- (rev_involutive sep), Hs. reflexivity.
    + inversion Hrev as [|? ? _ Hrev']; subst.
      inversion Hrev' as [|? ? Hy _]; subst.
      injection H as _ Hy'. destruct Hy; subst; discriminate.
Qed.

Lemma loop_loose_lines (lines : list (bytes.t * bytes.t)) (rs : list Row)
      (failure : error) (more : bytes.t) :
  Forall2 (fun l r => payload_of (fst l) r /\ separator (snd l)) lines rs ->
  loop_rows (S (List.length (List.concat (map loose_line lines) ++ more)))
            failure (List.concat (map loose_line lines) ++ more) =
  let (rs', e) := loop_rows (S (List.length more)) failure more in
  (rs ++ rs', e).
Proof.
  induction 1 as [|[p sep] r lines rs [Hp Hsep] _ IH].
  - simpl List.concat. simpl app.
    now destruct (loop_rows (S (List.length more)) failure more).
  - simpl List.concat. simpl map. rewrite <- app_assoc.
    simpl fst in Hp. simpl snd in Hsep.
    destruct (loose_line_framed (List.concat (map loose_line lines) ++ more)
                Hp Hsep) as (Hcut & Hb & Ht & Hs).
    rewrite loop_rows_turn, Hcut. unfold turn.
    rewrite Hb, Ht, Hs. destruct Hp as (Hdec & _). rewrite Hdec, IH.
    now destruct (loop_rows (S (List.length more)) failure more).
Qed.

Lemma pending_loose_response (header : bytes.t)
      (lines : list (bytes.t * bytes.t)) (rs : list Row)
      (ending : bytes.t) (e : option error) (rs' : list Row)
      (tail : bytes.t) (failure : error) :
  ~ In LF header ->
  Forall2 (fun l r => payload_of (fst l) r /\ separator (snd l)) lines rs ->
  loop_rows (S (List.length (ending ++ tail))) failure (ending ++ tail) =
    (rs', e) ->
  pending (newRowScanner
             (mkBody (loose_response header lines ending tail) failure 0 [])) =
  (rs ++ rs', e).
Proof.
  intros Hh Hps Hend. unfold loose_response.
  rewrite (pending_header header _ failure Hh).
  rewrite (loop_loose_lines failure (ending ++ tail) Hps).
  now rewrite Hend.
Qed.

(** *** Waiting in [Scan] *)

Lemma cancelled_stays (sched : list action) (s : RowScanner) :
  Inv s -> quit s = true -> quit (run sched s) = true.
Proof.
  revert s. induction sched as [|a sched IH]; intros s HI Hq; simpl.
  - exact Hq.
  - destruct (cancelled_delivers_nothing a HI Hq) as [_ Hq'].
    apply IH; [now apply Inv_step|exact Hq'].
Qed.

Lemma Close_closes_quit (s : RowScanner) :
  Inv s -> quit (step s CallClose) = true.
Proof.
  intros HI. destruct (panicked s) eqn:Hp.
  - unfold step. rewrite Hp. now apply (inv_panic HI).
  - destruct (quit s) eqn:Hq.
    + now destruct (cancelled_delivers_nothing CallClose HI Hq).
    + now destruct (Close_delivers_nothing s Hq Hp).
Qed.

Lemma uncancelled_calls (sched : list action) :
  uncancelled sched -> calls_of_Close sched = 0.
Proof.
  unfold calls_of_Close. induction 1 as [|a sched Ha _ IH]; simpl.
  - reflexivity.
  - now rewrite Ha.
Qed.

(** *** What [Err] and [Close] return *)




End Scanner.

(** * The scanner's guarantees *)

(** C3.  Whatever the two goroutines do, the body is closed exactly when
    the reader is over, and then it has been closed once, after having
    been read to its end; before that it has not been closed.  The reader
    does get there: a cancellation by [Close] ends it within three of its
    steps, and so does the consumer loop, whether the body is exhausted,
    cut short or undecodable. *)
Theorem body_drained_and_closed_once
  (Unmarshal : bytes.t -> Row * option error)
  (data : bytes.t) (failure : error) (sched : list action) (c1 c2 c3 : bool) :
  let s0 := newRowScanner (mkBody data failure 0 []) in
  let s := run Unmarshal sched s0 in
  let b := resp_Body s in
  (if is_over (reader s)
   then closed b = 1 /\ unread b = [] /\ lost b = []
   else closed b = 0)
  /\ (let s' := run Unmarshal [CallClose; Reader c1; Reader c2; Reader c3] s in
      panicked s' = true \/ reader s' = Done)
  /\ (let n := List.length (fst (pending Unmarshal s0)) in
      reader (run Unmarshal (rounds (S n)) s0) = Done).
Proof.
  intros s0 s b.
  assert (HI : Inv s) by (apply Inv_run, Inv_init).
  split; [|split].
  - pose proof (inv_closed HI) as Hc. pose proof (inv_drained HI) as Hd.
    pose proof (inv_lost HI) as Hl. fold b in Hc, Hd, Hl.
    destruct (is_over (reader s)); auto.
  - change (run Unmarshal [CallClose; Reader c1; Reader c2; Reader c3] s)
      with (run Unmarshal [Reader c1; Reader c2; Reader c3]
              (step Unmarshal s CallClose)).
    set (s1 := step Unmarshal s CallClose).
    assert (HI1 : Inv s1) by now apply Inv_step.
    destruct (panicked s1) eqn:Hp1.
    + left. now rewrite run_panicked.
    + right. apply cancelled_reader_ends; trivial.
      subst s1. unfold step in *. destruct (panicked s) eqn:Hp; [congruence|].
      unfold Close in *. destruct (quit s); [discriminate|].
      now destruct (consumer s).
  - apply consumer_loop_ends.
Qed.


(** C7.  In every execution, once a call of [Scan] has returned false no
    later call returns true; and a call of [Scan] never panics. *)
Theorem Scan_stays_false
  (Unmarshal : bytes.t -> Row * option error)
  (data : bytes.t) (failure : error) (sched : list action) :
  let s := run Unmarshal sched (newRowScanner (mkBody data failure 0 [])) in
  (forall tr1 r tr2, trace s = tr1 ++ EvScan false r :: tr2 ->
     forall ok r', In (EvScan ok r') tr2 -> ok = false)
  /\ (forall c, panicked (step Unmarshal s (CallScan c)) = panicked s).
Proof.
  intros s.
  assert (HI : Inv s) by (apply Inv_run, Inv_init).
  split.
  - intros tr1 r tr2 Htr. apply settled_split with (tr1 := tr1) (r := r).
    rewrite <- Htr. apply (inv_settled HI).
  - intros c. unfold step. destruct (panicked s) eqn:Hp; [exact Hp|].
    now rewrite Scan_panicked.
Qed.

(** C8, amended.  The first call of [Close] does not panic and returns
    what the error slot holds at that moment, leaving the slot as it is;
    after the reader has ended it changes nothing but the cancellation
    signal. *)
Theorem first_Close_returns_error
  (Unmarshal : bytes.t -> Row * option error)
  (data : bytes.t) (failure : error) (sched : list action) :
  calls_of_Close sched = 0 ->
  let s := run Unmarshal sched (newRowScanner (mkBody data failure 0 [])) in
  let s' := step Unmarshal s CallClose in
  panicked s' = false
  /\ err s' = err s
  /\ (exists tr, trace s' = tr ++ [EvClose (err s)])
  /\ (reader s = Done ->
      s' = mkScanner (resp_Body s) (row s) true (rows s) (err s) Done Idle
             false (trace s ++ [EvClose (err s)]) (reads s) (err_writes s)).
Proof.
  intros Hn s s'.
  assert (HI : Inv s) by (apply Inv_run, Inv_init).
  destruct (uncancelled_open Unmarshal sched
              (newRowScanner (mkBody data failure 0 [])) Hn eq_refl eq_refl)
    as [Hq Hp].
  fold s in Hq, Hp. pose proof (inv_waiting HI) as Hw.
  subst s'. unfold step. rewrite Hp. unfold Close. rewrite Hq.
  destruct s as [b rw q rs e pc cs pn tr rd ew]. simpl in *. subst q pn.
  unfold observe, scan_returns; simpl.
  repeat split.
  - now destruct cs.
  - now destruct cs.
  - destruct cs; simpl; eauto.
  - intros ->. destruct cs; simpl; [reflexivity|].
    destruct (Hw eq_refl) as [_ Hover]. discriminate Hover.
Qed.

(** C1, amended.  For a body in the wire format the read loop recognises
    (after the header line, rows followed by a comma and CR LF, then the
    last row followed by CR LF, or a closing line [}]] or an empty line,
    CR LF ended), the consumer loop gets true with each of the N rows in
    order, then false, and [Err] then returns nil; and in every
    interleaving of an uncancelled scan the answers of [Scan] are the
    first of that sequence.  With no row, the first [Scan] returns
    false. *)
Theorem scan_loop_yields_rows
  (Unmarshal : bytes.t -> Row * option error)
  (header : bytes.t) (ps : list bytes.t) (rs : list Row)
  (ending : bytes.t) (rs' : list Row) (tail : bytes.t) (failure : error) :
  ~ In LF header ->
  Forall2 (payload_of Unmarshal) ps rs ->
  ending_of Unmarshal ending rs' ->
  let s0 :=
    newRowScanner (mkBody (response header ps ending tail) failure 0 []) in
  trace (run Unmarshal (rounds (S (List.length (rs ++ rs'))) ++ [CallErr]) s0)
    = map (EvScan true) (rs ++ rs') ++ [EvScan false Row_zero; EvErr None]
  /\ (forall sched, uncancelled sched ->
      exists k,
        scans (trace (run Unmarshal sched s0)) =
        firstn k (map (EvScan true) (rs ++ rs')
                    ++ repeat (EvScan false Row_zero) k)).
Proof.
  intros Hh Hps Hend s0.
  assert (Hpend : pending Unmarshal s0 = (rs ++ rs', None)).
  { apply pending_response; trivial. now apply loop_ending. }
  split.
  - rewrite <- Nat.add_1_r.
    apply (@consumer_loop_trace Unmarshal _ (rs ++ rs') None 0);
      trivial.
  - intros sched Hu.
    apply (@uncancelled_answers Unmarshal _ (rs ++ rs') None sched); trivial.
Qed.

(** C4.  When a line that is not a closing line fails to decode, after
    rows with a comma that decoded, the consumer loop gets those rows,
    then false for every further call, and [Err] returns the decoder's
    error; and in no execution, cancelled or not, is anything delivered
    but the first of those rows. *)
Theorem decode_error_stops_scan
  (Unmarshal : bytes.t -> Row * option error)
  (header : bytes.t) (ps : list bytes.t) (rs : list Row)
  (bad : bytes.t) (e : error) (tail : bytes.t) (failure : error) (m : nat) :
  ~ In LF header ->
  Forall2 (payload_of Unmarshal) ps rs ->
  ~ In LF bad ->
  is_boundary (bad ++ [LF]) = false ->
  snd (Unmarshal (bytes.TrimRight (bad ++ [LF]) [","; CR; LF])) = Some e ->
  let s0 :=
    newRowScanner
      (mkBody (response header ps (bad ++ [LF]) tail) failure 0 []) in
  trace (run Unmarshal (rounds (List.length rs + S m) ++ [CallErr]) s0)
    = map (EvScan true) rs ++ repeat (EvScan false Row_zero) (S m)
        ++ [EvErr (Some e)]
  /\ (forall sched,
      exists k, deliveries (trace (run Unmarshal sched s0)) = firstn k rs).
Proof.
  intros Hh Hps Hlf Hb He s0.
  assert (Hpend : pending Unmarshal s0 = (rs, Some e)).
  { unfold s0. rewrite <- (app_nil_r rs).
    apply pending_response; trivial. now apply loop_undecodable. }
  split.
  - apply (@consumer_loop_trace Unmarshal _ rs (Some e) m); trivial.
  - intros sched.
    apply (@delivered_prefix Unmarshal _ rs (Some e) sched); trivial.
Qed.

(** C5, amended.  A line read in the loop that is not a closing line and
    that decodes is framed as the last row exactly when it ends in [}]
    followed by CR LF (the last-row marker [endMarker], which leaves no
    room for a comma), whether the consumer is waiting in [Scan] or not.
    The row is yielded either way.  With the marker the reader never
    calls [ReadBytes] again, whatever follows; without it, also when the
    line ends in [}] and a bare LF, the reader goes on and reads the next
    line. *)
Theorem last_row_marker_stops_reader
  (Unmarshal : bytes.t -> Row * option error)
  (s : RowScanner) (line rest : bytes.t) (r : Row) (c : bool) :
  reader s = AtRead -> quit s = false ->
  panicked s = false -> rows s = false ->
  cut delim (unread (resp_Body s)) = (line, Some rest) ->
  is_boundary line = false ->
  Unmarshal (bytes.TrimRight line [","; CR; LF]) = (r, None) ->
  let s1 := step Unmarshal s (Reader c) in
  let s2 := run Unmarshal (yield (consumer s)) s1 in
  exists last,
    reader s1 = AtSend r last
    /\ (last = true <-> exists p, line = p ++ ["}"; CR; LF])
    /\ trace s2 = trace s ++ [EvScan true r]
    /\ (if last
        then forall sched, reads (run Unmarshal sched s1) = reads s1
        else reads (run Unmarshal [Reader false; Reader false] s2)
             = S (reads s1)).
Proof.
  intros Hpc Hq Hp Hrows Hcut Hb Hdec s1 s2.
  exists (bytes.HasSuffix line endMarker).
  assert (H1 : s1 = at_reader (AtSend r (bytes.HasSuffix line endMarker))
                      (snd (read_line s))).
  { subst s1. unfold step. rewrite Hp. unfold readLoop. rewrite Hpc.
    unfold read_line, ReadBytes. rewrite Hcut. simpl.
    unfold frame. now rewrite Hb, Hdec. }
  assert (Hs2 : trace s2 = trace s ++ [EvScan true r]
                /\ reads s2 = reads s1 /\ panicked s2 = false
                /\ quit s2 = false
                /\ reader s2 = if bytes.HasSuffix line endMarker
                               then Returning else AtPoll).
  { subst s2. rewrite H1. clear H1 s1.
    unfold read_line, ReadBytes. rewrite Hcut.
    destruct s as [b rw q rs e pc cs pn tr rd ew]. simpl in *. subst.
    destruct cs; unfold step; simpl;
      destruct (bytes.HasSuffix line endMarker); simpl; auto 10. }
  destruct Hs2 as (Htr2 & Hrd2 & Hp2 & Hq2 & Hpc2).
  split; [now rewrite H1|]. split; [apply HasSuffix_iff|].
  split; [exact Htr2|].
  destruct (bytes.HasSuffix line endMarker) eqn:Hlast.
  - intros sched. apply stopping_run. now rewrite H1.
  - simpl.
    set (s3 := step Unmarshal s2 (Reader false)).
    assert (H3 : reader s3 = AtRead /\ panicked s3 = false
                 /\ reads s3 = reads s2).
    { subst s3. destruct s2 as [b rw q rs e pc cs pn tr rd ew].
      simpl in *. subst. unfold step; simpl. auto. }
    destruct H3 as (Hpc3 & Hp3 & Hrd3).
    rewrite (reads_step Unmarshal s3 false Hp3), Hpc3, Hrd3, Hrd2.
    reflexivity.
Qed.

(** C9.  A row whose value (doc) payload was not captured makes [Value]
    ([Doc]) return the error that names the absence, with the target left
    as it was; [HasValue] and [HasDoc] tell whether the payload is there,
    and they do not take the decoder. *)
Theorem absent_payload_is_an_error
  (T : Type) (Unmarshal : bytes.t -> T -> T * option error)
  (r : Row) (v : T) :
  (HasValue r = false ->
   Value Unmarshal r v = (r, v, Some (errors_New "value is nil."%string)))
  /\ (HasDoc r = false ->
      Doc Unmarshal r v = (r, v, Some (errors_New "doc is nil."%string)))
  /\ (HasValue r = true <-> Value_ r <> None)
  /\ (HasDoc r = true <-> Doc_ r <> None).
Proof.
  unfold HasValue, HasDoc, Value, Doc.
  destruct (Value_ r), (Doc_ r); repeat split; intros;
    try discriminate; try reflexivity; try congruence.
Qed.

(** The decodes in memory on a target that is no raw message are the
    decodes of the row's contents. *)
Lemma Value_in_memory
  (T : Type) (Unmarshal_T : bytes.t -> T -> T * option error)
  (m : heap.memory) (r : heap.Row) (x : T) :
  heap.Value Unmarshal_T m r (heap.Other x) =
  let '(_, x', e) := Value Unmarshal_T (heap.load m r) x in
  (m, heap.Other x', e).
Proof.
  unfold heap.Value, Value, heap.load, heap.mkContents. simpl.
  destruct (heap.Value_ r); simpl; [|reflexivity].
  now destruct (Unmarshal_T _ x).
Qed.

Lemma Doc_in_memory
  (T : Type) (Unmarshal_T : bytes.t -> T -> T * option error)
  (m : heap.memory) (r : heap.Row) (x : T) :
  heap.Doc Unmarshal_T m r (heap.Other x) =
  let '(_, x', e) := Doc Unmarshal_T (heap.load m r) x in
  (m, heap.Other x', e).
Proof.
  unfold heap.Doc, Doc, heap.load, heap.mkContents. simpl.
  destruct (heap.Doc_ r); simpl; [|reflexivity].
  now destruct (Unmarshal_T _ x).
Qed.




(** * The scenarios *)

(** C2, as stated, fails.  On the body of the scenario, with lines ended
    by a bare LF and the array closed on the line of the last row, the
    first [Scan] delivers row a, the second returns false, and [Err]
    returns the syntax error of the last line; no interleaving delivers
    row b. *)
Lemma lf_scenario_loses_last_row :
  let s0 := newRowScanner (http_body lf_body) in
  trace (run json.Unmarshal_Row (rounds 3 ++ [CallErr]) s0) =
    [EvScan true row_a; EvScan false Row_zero; EvScan false Row_zero;
     EvErr (Some json_SyntaxError)]
  /\ ~ (exists sched,
         In row_b (deliveries (trace (run json.Unmarshal_Row sched s0)))).
Proof.
  intros s0. split; [vm_compute; reflexivity|].
  intros [sched Hin].
  destruct (@delivered_prefix json.Unmarshal_Row (http_body lf_body)
              [row_a] (Some json_SyntaxError) sched eq_refl eq_refl)
    as [k Hk]; [vm_compute; reflexivity|].
  fold s0 in Hk. rewrite Hk in Hin.
  destruct k as [|k]; simpl in Hin; [contradiction|].
  rewrite firstn_nil in Hin. destruct Hin as [Hin|[]]. discriminate Hin.
Qed.

(** C2, amended.  On the same result as CouchDB sends it (lines ended by
    CR LF, the last row alone on its line), two calls of [Scan] deliver
    row a then row b, the third returns false, and [Err] returns nil; in
    every interleaving of an uncancelled scan the answers of [Scan] are
    the first of these. *)
Theorem crlf_scenario_yields_both_rows :
  let s0 := newRowScanner (http_body crlf_body) in
  trace (run json.Unmarshal_Row (rounds 3 ++ [CallErr]) s0) =
    [EvScan true row_a; EvScan true row_b; EvScan false Row_zero; EvErr None]
  /\ (forall sched, uncancelled sched ->
      exists k,
        scans (trace (run json.Unmarshal_Row sched s0)) =
        firstn k ([EvScan true row_a; EvScan true row_b]
                    ++ repeat (EvScan false Row_zero) k)).
Proof.
  intros s0. split; [vm_compute; reflexivity|].
  intros sched Hu.
  apply (@uncancelled_answers json.Unmarshal_Row (http_body crlf_body)
           [row_a; row_b] None sched eq_refl eq_refl); [|exact Hu].
  vm_compute. reflexivity.
Qed.

Lemma crlf_scenario_witness :
  exists k,
    scans (trace (run json.Unmarshal_Row (rounds 3)
                    (newRowScanner (http_body crlf_body)))) =
    firstn k ([EvScan true row_a; EvScan true row_b]
                ++ repeat (EvScan false Row_zero) k).
Proof.
  apply (proj2 crlf_scenario_yields_both_rows).
  repeat (constructor; [reflexivity|]). constructor.
Defined.

(** C1, as stated, fails.  A body in the shape of the specification's
    section 4.2 with one row, its lines ended by LF: the first [Scan]
    returns false, [Err] returns a syntax error, and no interleaving
    delivers a row. *)
Lemma lf_single_row_is_lost :
  let s0 := newRowScanner (http_body lf_single) in
  trace (run json.Unmarshal_Row (rounds 2 ++ [CallErr]) s0) =
    [EvScan false Row_zero; EvScan false Row_zero;
     EvErr (Some json_SyntaxError)]
  /\ ~ (exists sched r,
         In r (deliveries (trace (run json.Unmarshal_Row sched s0)))).
Proof.
  intros s0. split; [vm_compute; reflexivity|].
  intros (sched & r & Hin).
  destruct (@delivered_prefix json.Unmarshal_Row (http_body lf_single)
              [] (Some json_SyntaxError) sched eq_refl eq_refl)
    as [k Hk]; [vm_compute; reflexivity|].
  fold s0 in Hk. rewrite Hk, firstn_nil in Hin. contradiction.
Qed.

Lemma scan_loop_yields_rows_witness :
  trace (run json.Unmarshal_Row (rounds 3 ++ [CallErr])
           (newRowScanner
              (mkBody (response header_2 [payload_a] (payload_b ++ [CR; LF])
                         (txt "]}" ++ [LF])) io_EOF 0 []))) =
  [EvScan true row_a; EvScan true row_b; EvScan false Row_zero; EvErr None].
Proof.
  apply (proj1 (@scan_loop_yields_rows json.Unmarshal_Row header_2
                  [payload_a] [row_a] (payload_b ++ [CR; LF]) [row_b]
                  (txt "]}" ++ [LF]) io_EOF
                  ltac:(vm_compute; intuition discriminate)
                  ltac:(repeat constructor; vm_compute;
                        intuition discriminate)
                  ltac:(constructor; repeat split; vm_compute;
                        intuition discriminate))).
Defined.

(** C8, as stated, fails: a second call of [Close] panics, before the
    stream is exhausted and after. *)
Lemma second_Close_panics :
  let s0 := newRowScanner (http_body crlf_body) in
  trace (run json.Unmarshal_Row [CallClose; CallClose] s0) =
    [EvClose None; EvPanic]
  /\ trace (run json.Unmarshal_Row (rounds 3 ++ [CallClose; CallClose]) s0) =
    [EvScan true row_a; EvScan true row_b; EvScan false Row_zero;
     EvClose None; EvPanic].
Proof. split; vm_compute; reflexivity. Qed.


(** C5, as stated, fails.  With lines ended by the line terminator LF
    alone, the line of the last row ends in [}] followed by the line
    terminator, with no trailing comma, and is not a closing line; the
    loop does not take it for the last row: after the row is yielded the
    reader reads a further line, the one that closes the array, and the
    scan ends with the syntax error of that line. *)
Lemma lf_last_row_is_not_marked :
  let s :=
    run json.Unmarshal_Row [Reader false; Reader false; CallScan false;
                            Reader false; Reader false; Reader false]
        (newRowScanner (http_body lf_lines)) in
  let line := txt "{'id':'b','key':'k2'" ++ ["}"; LF] in
  let s1 := step json.Unmarshal_Row s (Reader false) in
  let s2 := run json.Unmarshal_Row (yield (consumer s)) s1 in
  reader s = AtRead
  /\ cut delim (unread (resp_Body s)) = (line, Some (txt "]}" ++ [LF]))
  /\ is_boundary line = false
  /\ reader s1 = AtSend row_b false
  /\ trace s2 = [EvScan true row_a; EvScan true row_b]
  /\ reads s1 = 3
  /\ reads (run json.Unmarshal_Row [Reader false; Reader false] s2) = 4
  /\ trace (run json.Unmarshal_Row (rounds 3 ++ [CallErr])
                (newRowScanner (http_body lf_lines)))
     = [EvScan true row_a; EvScan true row_b; EvScan false Row_zero;
        EvErr (Some json_SyntaxError)].
Proof. vm_compute. repeat split; reflexivity. Qed.


(** * The theorems at concrete inputs *)

Example Unmarshal_payload_a : json.Unmarshal_Row payload_a = (row_a, None).
Proof. vm_compute. reflexivity. Qed.

Example Unmarshal_trailing_bracket :
  json.Unmarshal_Row (payload_b ++ ["]"]) = (Row_zero, Some json_SyntaxError).
Proof. vm_compute. reflexivity. Qed.

Example Unmarshal_captures_value :
  json.Unmarshal_Row (txt "{'id':'a','key':'k1','value':{'rev':'1-x'},'doc':null}")
  = (mkRow "a" "k1" (Some (txt "{'rev':'1-x'}")) None, None).
Proof. vm_compute. reflexivity. Qed.

Lemma decode_error_stops_scan_witness :
  trace (run json.Unmarshal_Row (rounds (1 + 2) ++ [CallErr])
           (newRowScanner
              (mkBody (response header_2 [payload_a]
                         ((payload_b ++ ["]"; "}"]) ++ [LF]) [])
                      io_EOF 0 []))) =
  [EvScan true row_a; EvScan false Row_zero; EvScan false Row_zero;
   EvErr (Some json_SyntaxError)].
Proof.
  apply (proj1 (@decode_error_stops_scan json.Unmarshal_Row header_2
                  [payload_a] [row_a] (payload_b ++ ["]"; "}"])
                  json_SyntaxError [] io_EOF 1
                  ltac:(vm_compute; intuition discriminate)
                  ltac:(repeat constructor; vm_compute;
                        intuition discriminate)
                  ltac:(vm_compute; intuition discriminate)
                  ltac:(vm_compute; reflexivity)
                  ltac:(vm_compute; reflexivity))).
Defined.

Lemma last_row_marker_stops_reader_witness :
  let s :=
    run json.Unmarshal_Row [Reader false; Reader false; Reader false;
                            CallScan false; Reader false; CallScan false;
                            Reader false]
        (newRowScanner (http_body crlf_body)) in
  let s1 := step json.Unmarshal_Row s (Reader false) in
  let s2 := run json.Unmarshal_Row (yield (consumer s)) s1 in
  consumer s = InScan
  /\ exists last,
      reader s1 = AtSend row_b last
      /\ (last = true <-> exists p, payload_b ++ [CR; LF] = p ++ ["}"; CR; LF])
      /\ trace s2 = trace s ++ [EvScan true row_b]
      /\ (if last
          then forall sched,
              reads (run json.Unmarshal_Row sched s1) = reads s1
          else reads (run json.Unmarshal_Row [Reader false; Reader false] s2)
               = S (reads s1)).
Proof.
  intros s. split; [vm_compute; reflexivity|].
  apply (@last_row_marker_stops_reader json.Unmarshal_Row s
           (payload_b ++ [CR; LF]) (txt "]}" ++ [LF]) row_b false);
    vm_compute; reflexivity.
Defined.


Lemma Scan_stays_false_witness :
  let s := run json.Unmarshal_Row (rounds 4) (newRowScanner (http_body crlf_body)) in
  trace s = [EvScan true row_a; EvScan true row_b]
              ++ EvScan false Row_zero :: [EvScan false Row_zero]
  /\ (forall ok r', In (EvScan ok r') [EvScan false Row_zero] -> ok = false).
Proof.
  intros s. split; [vm_compute; reflexivity|].
  apply (proj1 (Scan_stays_false json.Unmarshal_Row crlf_body io_EOF (rounds 4))
           [EvScan true row_a; EvScan true row_b] Row_zero
           [EvScan false Row_zero]).
  vm_compute. reflexivity.
Defined.

Lemma first_Close_returns_error_witness :
  let s := run json.Unmarshal_Row (rounds 2) (newRowScanner (http_body lf_body)) in
  let s' := step json.Unmarshal_Row s CallClose in
  panicked s' = false
  /\ err s' = Some json_SyntaxError
  /\ trace s' = trace s ++ [EvClose (Some json_SyntaxError)].
Proof.
  intros s s'.
  destruct (first_Close_returns_error json.Unmarshal_Row lf_body io_EOF
              (rounds 2) eq_refl) as (Hp & He & _ & Hdone).
  split; [exact Hp|]. split.
  - transitivity (err s); [exact He|vm_compute; reflexivity].
  - specialize (Hdone ltac:(vm_compute; reflexivity)).
    etransitivity; [exact (f_equal trace Hdone)|vm_compute; reflexivity].
Defined.

Lemma absent_payload_is_an_error_witness :
  Value (fun (_ : bytes.t) (v : nat) => (v, None)) row_a 7
  = (row_a, 7, Some (errors_New "value is nil."%string)).
Proof.
  apply (proj1 (absent_payload_is_an_error
                  (fun (_ : bytes.t) (v : nat) => (v, None)) row_a 7)).
  reflexivity.
Defined.


(** The connection drops after the first row: the first [Scan] delivers
    it, the second returns false, and [Err] returns the failure. *)
Example truncated_body_is_an_error :
  trace (run json.Unmarshal_Row (rounds 2 ++ [CallErr])
           (newRowScanner
              (mkBody (header_2 ++ [LF] ++ row_line payload_a
                         ++ txt "{'id':'b','ke")
                      (io_failure 104) 0 []))) =
  [EvScan true row_a; EvScan false Row_zero; EvErr (Some (io_failure 104))].
Proof. vm_compute. reflexivity. Qed.

(** No row at all, as CouchDB sends it: the header, an empty line, and
    the closing of the object. *)
Example empty_result_is_exhausted :
  trace (run json.Unmarshal_Row (rounds 1 ++ [CallErr])
           (newRowScanner
              (http_body (txt "{'total_rows':0,'offset':0,'rows':[" ++ [CR; LF]
                            ++ [CR; LF] ++ txt "]}" ++ [LF])))) =
  [EvScan false Row_zero; EvErr None].
Proof. vm_compute. reflexivity. Qed.

(** * More about the scanner *)

(** X1.  Once [Close] has been called no row is delivered any more,
    whatever the reader and the consumer do next: the rows delivered in
    the whole execution are those delivered before the call. *)
Theorem Close_stops_deliveries
  (Unmarshal : bytes.t -> Row * option error)
  (data : bytes.t) (failure : error) (sched sched' : list action) :
  let s0 := newRowScanner (mkBody data failure 0 []) in
  deliveries (trace (run Unmarshal (sched ++ CallClose :: sched') s0)) =
  deliveries (trace (run Unmarshal sched s0)).
Proof.
  intros s0. rewrite run_app. apply Close_then_nothing.
  apply Inv_run, Inv_init.
Qed.

(** X2.  In every execution the reader has called [ReadBytes] at least
    once for every row delivered, and at most twice more: it is never
    further than the header and one row line ahead of the consumer. *)
Theorem reader_one_line_ahead
  (Unmarshal : bytes.t -> Row * option error)
  (b : Body) (sched : list action) :
  let s := run Unmarshal sched (newRowScanner b) in
  let d := List.length (deliveries (trace s)) in
  d <= reads s <= d + 2.
Proof.
  intros s d.
  assert (H : ahead s).
  { apply ahead_run. unfold ahead. simpl. auto. }
  unfold ahead in H. fold d in H. destruct (reader s); lia.
Qed.

(** X3.  What an uncancelled scan answers depends on the body only, not
    on the interleaving of reader and consumer: the answers of [Scan] are
    always the first of the rows the loop reads off the body in sequence,
    then false; and the consumer loop gets all of them, with [Err]
    returning the error the loop ended with. *)
Theorem answers_depend_on_body_only
  (Unmarshal : bytes.t -> Row * option error)
  (data : bytes.t) (failure : error) (sched : list action) (m : nat) :
  uncancelled sched ->
  let s0 := newRowScanner (mkBody data failure 0 []) in
  let rs := fst (pending Unmarshal s0) in
  let oe := snd (pending Unmarshal s0) in
  (exists k,
     scans (trace (run Unmarshal sched s0)) =
     firstn k (map (EvScan true) rs ++ repeat (EvScan false Row_zero) k))
  /\ trace (run Unmarshal (rounds (List.length rs + S m) ++ [CallErr]) s0) =
     map (EvScan true) rs ++ repeat (EvScan false Row_zero) (S m)
       ++ [EvErr oe].
Proof.
  intros Hu s0 rs oe.
  assert (Hpend : pending Unmarshal s0 = (rs, oe)).
  { subst rs oe. now destruct (pending Unmarshal s0). }
  split.
  - now apply (@uncancelled_answers Unmarshal _ rs oe sched).
  - now apply (@consumer_loop_trace Unmarshal _ rs oe m).
Qed.

Lemma answers_depend_on_body_only_witness :
  exists k,
    scans (trace (run json.Unmarshal_Row
                    [Reader false; Reader true; CallScan true; CallErr;
                     Reader false; Reader false; CallScan false]
                    (newRowScanner (mkBody crlf_body io_EOF 0 [])))) =
    firstn k (map (EvScan true) [row_a; row_b]
                ++ repeat (EvScan false Row_zero) k).
Proof.
  apply (proj1 (@answers_depend_on_body_only json.Unmarshal_Row crlf_body
                  io_EOF
                  [Reader false; Reader true; CallScan true; CallErr;
                   Reader false; Reader false; CallScan false] 0
                  ltac:(repeat (constructor; [reflexivity|]); constructor))).
Defined.

(** X4.  When the body ends (or the connection fails) after rows with a
    comma, in the middle of a line or right after one, the consumer loop
    gets those rows, then false, and [Err] returns the body's error:
    [io.EOF] when the body simply ended.  No execution delivers anything
    but the first of those rows. *)
Theorem cut_short_body_is_an_error
  (Unmarshal : bytes.t -> Row * option error)
  (header : bytes.t) (ps : list bytes.t) (rs : list Row)
  (partial : bytes.t) (failure : error) (m : nat) :
  ~ In LF header ->
  Forall2 (payload_of Unmarshal) ps rs ->
  ~ In LF partial ->
  let s0 :=
    newRowScanner (mkBody (response header ps partial []) failure 0 []) in
  trace (run Unmarshal (rounds (List.length rs + S m) ++ [CallErr]) s0)
    = map (EvScan true) rs ++ repeat (EvScan false Row_zero) (S m)
        ++ [EvErr (Some failure)]
  /\ (forall sched,
      exists k, deliveries (trace (run Unmarshal sched s0)) = firstn k rs).
Proof.
  intros Hh Hps Hp s0.
  assert (Hpend : pending Unmarshal s0 = (rs, Some failure)).
  { unfold s0. rewrite <- (app_nil_r rs).
    apply pending_response; trivial. rewrite app_nil_r.
    now apply loop_cut. }
  split.
  - now apply (@consumer_loop_trace Unmarshal _ rs (Some failure) m).
  - intros sched.
    now apply (@delivered_prefix Unmarshal _ rs (Some failure) sched).
Qed.

Lemma cut_short_body_is_an_error_witness :
  trace (run json.Unmarshal_Row (rounds (1 + 1) ++ [CallErr])
           (newRowScanner
              (mkBody (response header_2 [payload_a] [] []) io_EOF 0 []))) =
  [EvScan true row_a; EvScan false Row_zero; EvErr (Some io_EOF)].
Proof.
  apply (proj1 (@cut_short_body_is_an_error json.Unmarshal_Row header_2
                  [payload_a] [row_a] [] io_EOF 0
                  ltac:(vm_compute; intuition discriminate)
                  ltac:(repeat constructor; vm_compute;
                        intuition discriminate)
                  ltac:(simpl; intuition))).
Defined.

(** X5.  A body without a line feed, the empty body included, has no
    header line: every [Scan] returns false, [Err] returns the body's
    error, and no execution delivers a row. *)
Theorem body_without_line_feed
  (Unmarshal : bytes.t -> Row * option error)
  (data : bytes.t) (failure : error) (m : nat) :
  ~ In LF data ->
  let s0 := newRowScanner (mkBody data failure 0 []) in
  trace (run Unmarshal (rounds (S m) ++ [CallErr]) s0)
    = repeat (EvScan false Row_zero) (S m) ++ [EvErr (Some failure)]
  /\ (forall sched, deliveries (trace (run Unmarshal sched s0)) = []).
Proof.
  intros Hlf s0.
  assert (Hpend : pending Unmarshal s0 = ([], Some failure))
    by now apply pending_headless.
  split.
  - now apply (@consumer_loop_trace Unmarshal _ [] (Some failure) m).
  - intros sched.
    destruct (@delivered_prefix Unmarshal (mkBody data failure 0 []) []
                (Some failure) sched eq_refl eq_refl Hpend) as [k Hk].
    fold s0 in Hk. now rewrite Hk, firstn_nil.
Qed.

Lemma body_without_line_feed_witness :
  trace (run json.Unmarshal_Row (rounds 1 ++ [CallErr])
           (newRowScanner (mkBody [] io_EOF 0 []))) =
  [EvScan false Row_zero; EvErr (Some io_EOF)].
Proof.
  apply (proj1 (@body_without_line_feed json.Unmarshal_Row [] io_EOF 0
                  ltac:(simpl; intuition))).
Defined.

(** X6.  In an uncancelled scan, a [Scan] that returns false has
    received from the closed channel: [Row()] is then the zero row, not
    the last row delivered. *)
Theorem Row_is_zero_after_end
  (Unmarshal : bytes.t -> Row * option error)
  (data : bytes.t) (failure : error) (sched : list action) (r : Row) :
  uncancelled sched ->
  In (EvScan false r)
     (trace (run Unmarshal sched (newRowScanner (mkBody data failure 0 [])))) ->
  r = Row_zero.
Proof.
  intros Hu Hin.
  now apply (@refusal_is_zero Unmarshal (mkBody data failure 0 []) sched r).
Qed.

Lemma Row_is_zero_after_end_witness :
  In (EvScan false Row_zero)
     (trace (run json.Unmarshal_Row (rounds 3)
               (newRowScanner (mkBody crlf_body io_EOF 0 []))))
  /\ Row_zero = Row_zero.
Proof.
  assert (Hin : In (EvScan false Row_zero)
                   (trace (run json.Unmarshal_Row (rounds 3)
                             (newRowScanner (mkBody crlf_body io_EOF 0 []))))).
  { vm_compute. auto. }
  split; [exact Hin|].
  apply (@Row_is_zero_after_end json.Unmarshal_Row crlf_body io_EOF
           (rounds 3) Row_zero); [|exact Hin].
  repeat (constructor; [reflexivity|]). constructor.
Defined.

(** X7.  Once the error slot holds an error (what [Err] returns is not
    nil) no row is delivered any more. *)
Theorem nothing_delivered_after_error
  (Unmarshal : bytes.t -> Row * option error)
  (data : bytes.t) (failure : error) (sched sched' : list action) :
  let s0 := newRowScanner (mkBody data failure 0 []) in
  err (run Unmarshal sched s0) <> None ->
  deliveries (trace (run Unmarshal (sched ++ sched') s0)) =
  deliveries (trace (run Unmarshal sched s0)).
Proof.
  intros s0 He. rewrite run_app. apply failed_run; [|exact He].
  apply Inv_run, Inv_init.
Qed.

Lemma nothing_delivered_after_error_witness :
  deliveries
    (trace (run json.Unmarshal_Row
              ([Reader false; Reader false; Reader false; Reader false;
                Reader false; Reader false]
                 ++ [CallScan false; CallScan false])
              (newRowScanner (mkBody lf_single io_EOF 0 [])))) =
  deliveries
    (trace (run json.Unmarshal_Row
              [Reader false; Reader false; Reader false; Reader false;
               Reader false; Reader false]
              (newRowScanner (mkBody lf_single io_EOF 0 [])))).
Proof.
  apply (@nothing_delivered_after_error json.Unmarshal_Row lf_single io_EOF).
  vm_compute. discriminate.
Defined.

(** X8.  Between a row and the line feed the loop accepts commas and CRs
    in any number and order (a comma and LF, LF alone, a comma and CR LF,
    ...), a single CR excepted, which marks the last row: a body whose
    rows end so, before a last row or a closing line in the CR LF form,
    gives all its rows to the consumer loop, then false, and [Err]
    returns nil. *)
Theorem loose_separators_are_accepted
  (Unmarshal : bytes.t -> Row * option error)
  (header : bytes.t) (lines : list (bytes.t * bytes.t)) (rs : list Row)
  (ending : bytes.t) (rs' : list Row) (tail : bytes.t) (failure : error) :
  ~ In LF header ->
  Forall2 (fun l r => payload_of Unmarshal (fst l) r /\ separator (snd l))
          lines rs ->
  ending_of Unmarshal ending rs' ->
  let s0 :=
    newRowScanner
      (mkBody (loose_response header lines ending tail) failure 0 []) in
  trace (run Unmarshal (rounds (S (List.length (rs ++ rs'))) ++ [CallErr]) s0)
    = map (EvScan true) (rs ++ rs') ++ [EvScan false Row_zero; EvErr None].
Proof.
  intros Hh Hps Hend s0.
  assert (Hpend : pending Unmarshal s0 = (rs ++ rs', None)).
  { apply pending_loose_response; trivial. now apply loop_ending. }
  rewrite <- Nat.add_1_r.
  now apply (@consumer_loop_trace Unmarshal _ (rs ++ rs') None 0).
Qed.

Lemma loose_separators_are_accepted_witness :
  trace (run json.Unmarshal_Row (rounds 3 ++ [CallErr])
           (newRowScanner
              (mkBody (loose_response header_2
                         [(payload_a, [","]); (payload_b, [])]
                         [CR; LF] [])
                      io_EOF 0 []))) =
  [EvScan true row_a; EvScan true row_b; EvScan false Row_zero; EvErr None].
Proof.
  apply (@loose_separators_are_accepted json.Unmarshal_Row header_2
           [(payload_a, [","]); (payload_b, [])] [row_a; row_b]
           [CR; LF] [] [] io_EOF).
  - vm_compute. intuition discriminate.
  - repeat constructor; try (vm_compute; intuition discriminate);
      simpl; discriminate.
  - apply ending_closing. reflexivity.
Defined.

(** * The requests of Client and DB *)

Lemma lookup_In (V : Type) (kv : string * V) (m : Options V) :
  In kv m -> lookup (fst kv) m <> None.
Proof.
  induction m as [|[k v] m IH]; simpl; [contradiction|].
  intros [<-|Hin]; simpl.
  - now rewrite String.eqb_refl.
  - destruct (String.eqb (fst kv) k); [discriminate|now apply IH].
Qed.

(** The loop over the options changes nothing: every key it meets is a
    key of the map it would add it to. *)
Lemma merge_options_same (V : Type) (opts : Options V) :
  merge_options opts = opts.
Proof.
  unfold merge_options.
  assert (H : forall l m : Options V, incl l m ->
    fold_left
      (fun (m : Options V) kv =>
         match lookup (fst kv) m with
         | Some _ => m
         | None => assign (fst kv) (snd kv) m
         end) l m = m).
  { induction l as [|kv l IH]; intros m Hincl; simpl; [reflexivity|].
    assert (Hkv : lookup (fst kv) m <> None).
    { apply lookup_In. apply Hincl. now left. }
    destruct (lookup (fst kv) m); [|congruence].
    apply IH. intros x Hx. apply Hincl. now right. }
  apply H, incl_refl.
Qed.

(** X9.  [View] makes at most one request, and no other than the GET of
    the path [optpath] builds from the options: none at all when the
    design document's name does not start with [_design/] (the error says
    so) or when [optpath] refuses the options (its error is returned). *)
Theorem View_requests
  (V T : Type) (h : helpers V T) (db : DB) (ddoc view : string)
  (result : T) (opts : Options V) (log : list call) :
  let '((_, e), log') := View h db ddoc view result opts log in
  let built :=
    optpath h opts viewJsonKeys [Name db; ddoc; "_view"; view]%string in
  (String.prefix "_design/" ddoc = false ->
   e = Some not_a_design_doc /\ log' = log)
  /\ (String.prefix "_design/" ddoc = true ->
      match built with
      | inr e' => e = Some e' /\ log' = log
      | inl p => log' = log ++ [mkCall false "GET" p None]
      end).
Proof.
  unfold View, request.
  destruct (String.prefix "_design/" ddoc); simpl.
  - destruct (optpath h opts viewJsonKeys _) as [p|e'].
    + destruct (server h log _) as [resp|e''].
      * destruct (readBody h resp result). split; [discriminate|auto].
      * split; [discriminate|auto].
    + split; [discriminate|auto].
  - split; [auto|discriminate].
Qed.

Lemma View_requests_witness :
  let h := mkHelpers (V := nat) (T := nat)
             (fun _ _ => inr io_EOF) (fun _ => "/"%string)
             (fun _ _ _ => inl "/db/_design/d/_view/v"%string)
             (fun _ _ => false) (fun _ t => (t, None)) in
  snd (View h (mkDB "db") "docs" "v" 0 [] []) = []
  /\ snd (View h (mkDB "db") "_design/d" "v" 0 [] []) =
     [mkCall false "GET" "/db/_design/d/_view/v" None].
Proof.
  intros h.
  pose proof (View_requests h (mkDB "db") "docs" "v" 0 [] []) as H1.
  pose proof (View_requests h (mkDB "db") "_design/d" "v" 0 [] []) as H2.
  destruct (View h (mkDB "db") "docs" "v" 0 [] []) as [[r1 e1] l1].
  destruct (View h (mkDB "db") "_design/d" "v" 0 [] []) as [[r2 e2] l2].
  simpl. split.
  - now destruct (proj1 H1 eq_refl).
  - exact (proj2 H2 eq_refl).
Defined.

(** X10.  [ViewScanner] makes the requests [View] makes, and it leaves
    the caller's options as they are: its loop over the options adds
    nothing, the two maps it goes through being one.  When no request is
    made the two return the same error. *)
Theorem ViewScanner_requests_like_View
  (V T : Type) (h : helpers V T) (db : DB) (ddoc view : string)
  (result : T) (opts : Options V) (log : list call) :
  let '((sc, e, opts'), log1) := ViewScanner h db ddoc view opts log in
  let '((_, e'), log2) := View h db ddoc view result opts log in
  log1 = log2 /\ opts' = opts
  /\ (log1 = log -> sc = None /\ e = e' /\ e <> None).
Proof.
  unfold ViewScanner, View, request. rewrite merge_options_same.
  destruct (String.prefix "_design/" ddoc); simpl.
  - destruct (optpath h opts viewJsonKeys _) as [p|e0].
    + destruct (scanner_of (server h log _)) as [sc e] eqn:Hsc.
      assert (Hgrow : log ++ [mkCall false "GET" p None] <> log).
      { intros H. apply (f_equal (@List.length call)) in H.
        rewrite length_app in H. simpl in H. lia. }
      destruct (server h log _) as [resp|e1].
      * destruct (readBody h resp result). repeat split; congruence.
      * repeat split; congruence.
    + repeat split; congruence.
  - repeat split; congruence.
Qed.

(** X11.  [AllDocsScanner] and [ViewScanner] return either a scanner or
    an error, never both and never neither; the scanner is there exactly
    when the server replied with status 200, and it is then a fresh
    scanner on the body of the reply.  From both, a reply with another
    status gives the error that names the status; and [ViewScanner]
    returns the error about the name when the design document's name
    does not start with [_design/]. *)
Theorem scanner_or_error
  (V T : Type) (h : helpers V T) (db : DB) (ddoc view : string)
  (opts : Options V) (log : list call) :
  (let '((sc, e), _) := AllDocsScanner h db opts log in
   (sc = None <-> e <> None)
   /\ (forall s, sc = Some s <->
         exists p resp,
           optpath h opts viewJsonKeys [Name db; "_all_docs"]%string = inl p
           /\ server h log (mkCall false "GET" p None) = inl resp
           /\ StatusCode resp = 200%Z
           /\ s = newRowScanner (Body_of resp))
   /\ (forall p resp,
         optpath h opts viewJsonKeys [Name db; "_all_docs"]%string = inl p ->
         server h log (mkCall false "GET" p None) = inl resp ->
         StatusCode resp <> 200%Z ->
         e = Some (unexpected_status (StatusCode resp))))
  /\ (let '((sc, e, _), _) := ViewScanner h db ddoc view opts log in
      (sc = None <-> e <> None)
      /\ (forall s, sc = Some s <->
            String.prefix "_design/" ddoc = true
            /\ exists p resp,
                optpath h opts viewJsonKeys
                        [Name db; ddoc; "_view"; view]%string = inl p
                /\ server h log (mkCall false "GET" p None) = inl resp
                /\ StatusCode resp = 200%Z
                /\ s = newRowScanner (Body_of resp))
      /\ (forall p resp,
            String.prefix "_design/" ddoc = true ->
            optpath h opts viewJsonKeys
                    [Name db; ddoc; "_view"; view]%string = inl p ->
            server h log (mkCall false "GET" p None) = inl resp ->
            StatusCode resp <> 200%Z ->
            e = Some (unexpected_status (StatusCode resp)))
      /\ (String.prefix "_design/" ddoc = false ->
          e = Some not_a_design_doc)).
Proof.
  assert (Hsc : forall r : Response + error,
    let '(sc, e) := scanner_of r in
    (sc = None <-> e <> None)
    /\ (forall s, sc = Some s <->
          exists resp, r = inl resp /\ StatusCode resp = 200%Z
                       /\ s = newRowScanner (Body_of resp))
    /\ (forall resp, r = inl resp -> StatusCode resp <> 200%Z ->
          e = Some (unexpected_status (StatusCode resp)))).
  { intros [resp|e]; simpl.
    - destruct (StatusCode resp =? 200)%Z eqn:E; simpl.
      + apply Z.eqb_eq in E. split; [split; congruence|]. split.
        * intros s. split.
          -- intros H. injection H as <-. now exists resp.
          -- intros (resp' & H & _ & ->). now injection H as <-.
        * intros resp' H Hne. injection H as <-. contradiction.
      + apply Z.eqb_neq in E. split; [split; congruence|]. split.
        * intros s. split; [discriminate|].
          intros (resp' & H & H' & _). injection H as <-. contradiction.
        * intros resp' H _. now injection H as <-.
    - split; [split; congruence|]. split.
      + intros s. split; [discriminate|].
        intros (resp' & H & _). discriminate H.
      + intros resp' H. discriminate H. }
  split.
  - unfold AllDocsScanner, request.
    destruct (optpath h opts viewJsonKeys _) as [p|e0].
    + pose proof (Hsc (server h log (mkCall false "GET" p None))) as H.
      destruct (scanner_of _) as [sc e]. destruct H as (H1 & H2 & H3).
      split; [exact H1|]. split.
      * intros s. rewrite H2. split.
        -- intros (resp & Hr & Hs & ->). now exists p, resp.
        -- intros (p' & resp & Hp & Hr & Hs & ->). injection Hp as <-.
           now exists resp.
      * intros p' resp Hp Hr Hs. injection Hp as <-. now apply H3.
    + repeat split; try congruence.
      intros (p & resp & Hp & _). discriminate Hp.
  - unfold ViewScanner, request. rewrite merge_options_same.
    destruct (String.prefix "_design/" ddoc); simpl.
    + destruct (optpath h opts viewJsonKeys _) as [p|e0].
      * pose proof (Hsc (server h log (mkCall false "GET" p None))) as H.
        destruct (scanner_of _) as [sc e]. destruct H as (H1 & H2 & H3).
        split; [exact H1|]. split; [|split].
        -- intros s. rewrite H2. split.
           ++ intros (resp & Hr & Hs & ->). split; [reflexivity|].
              now exists p, resp.
           ++ intros (_ & p' & resp & Hp & Hr & Hs & ->). injection Hp as <-.
              now exists resp.
        -- intros p' resp _ Hp Hr Hs. injection Hp as <-. now apply H3.
        -- discriminate.
      * split; [split; congruence|]. split; [|split].
        -- intros s. split; [discriminate|].
           intros (_ & p & resp & Hp & _). discriminate Hp.
        -- intros p resp _ Hp. discriminate Hp.
        -- discriminate.
    + split; [split; congruence|]. split; [|split].
      * intros s. split; [discriminate|]. intros (H & _). discriminate H.
      * intros p resp H. discriminate H.
      * reflexivity.
Qed.

Lemma ViewScanner_requests_like_View_witness :
  let h := mkHelpers (V := nat) (T := nat)
             (fun _ _ => inr io_EOF) (fun _ => "/"%string)
             (fun _ _ _ => inr (errors_New "bad option"))
             (fun _ _ => false) (fun _ t => (t, None)) in
  ViewScanner h (mkDB "db") "_design/d" "v" [("limit"%string, 3)] [] =
  ((None, Some (errors_New "bad option"), [("limit"%string, 3)]), []).
Proof.
  intros h.
  pose proof (ViewScanner_requests_like_View h (mkDB "db") "_design/d" "v" 0
                [("limit"%string, 3)] []) as H.
  destruct (ViewScanner h (mkDB "db") "_design/d" "v" [("limit"%string, 3)] [])
    as [[[sc e] o] l1].
  change (View h (mkDB "db") "_design/d" "v" 0 [("limit"%string, 3)] [])
    with ((0, Some (errors_New "bad option")), @nil call) in H.
  destruct H as (-> & -> & H). destruct (H eq_refl) as (-> & -> & _).
  reflexivity.
Defined.

Lemma scanner_or_error_witness :
  let h := mkHelpers (V := nat) (T := nat)
             (fun _ _ => inl (mkResponse 404 0 (http_body [])))
             (fun _ => "/"%string)
             (fun _ _ _ => inl "/db/_all_docs"%string)
             (fun _ _ => false) (fun _ t => (t, None)) in
  snd (fst (AllDocsScanner h (mkDB "db") [] [])) =
  Some (errors_New "Unexpected status code: 404")
  /\ snd (fst (fst (ViewScanner h (mkDB "db") "_design/d" "v" [] []))) =
     Some (errors_New "Unexpected status code: 404").
Proof.
  intros h.
  pose proof (scanner_or_error h (mkDB "db") "_design/d" "v" [] []) as H.
  cbv zeta in H. subst h. cbn in H.
  destruct H as ((_ & _ & H) & (_ & _ & H' & _)).
  split; symmetry.
  - exact (H "/db/_all_docs"%string (mkResponse 404 0 (http_body []))
             eq_refl eq_refl ltac:(discriminate)).
  - exact (H' "/db/_all_docs"%string (mkResponse 404 0 (http_body []))
              eq_refl eq_refl eq_refl ltac:(discriminate)).
Defined.

(** X12.  From the request to the rows: when the server answers the GET
    of [AllDocsScanner] with status 200 and a body in the wire format,
    the call returns a scanner and no error, and the consumer loop on
    that scanner gets the rows of the body in order, then false, with
    [Err] returning nil. *)
Theorem AllDocsScanner_delivers_rows
  (Unmarshal : bytes.t -> Row * option error)
  (V T : Type) (h : helpers V T) (db : DB) (opts : Options V)
  (log : list call) (p : string) (resp : Response)
  (header : bytes.t) (ps : list bytes.t) (rs : list Row)
  (ending : bytes.t) (rs' : list Row) (tail : bytes.t) (failure : error) :
  optpath h opts viewJsonKeys [Name db; "_all_docs"]%string = inl p ->
  server h log (mkCall false "GET" p None) = inl resp ->
  StatusCode resp = 200%Z ->
  Body_of resp = mkBody (response header ps ending tail) failure 0 [] ->
  ~ In LF header ->
  Forall2 (payload_of Unmarshal) ps rs ->
  ending_of Unmarshal ending rs' ->
  exists s,
    AllDocsScanner h db opts log =
      ((Some s, None), log ++ [mkCall false "GET" p None])
    /\ trace (run Unmarshal
               (rounds (S (List.length (rs ++ rs'))) ++ [CallErr]) s) =
       map (EvScan true) (rs ++ rs') ++ [EvScan false Row_zero; EvErr None].
Proof.
  intros Hp Hr Hs Hb Hh Hps Hend.
  exists (newRowScanner (Body_of resp)). split.
  - unfold AllDocsScanner, request. rewrite Hp. simpl. rewrite Hr. simpl.
    rewrite Hs. reflexivity.
  - rewrite Hb, <- Nat.add_1_r.
    apply (@consumer_loop_trace Unmarshal _ (rs ++ rs') None 0); trivial.
    apply pending_response; trivial. now apply loop_ending.
Qed.

Lemma AllDocsScanner_delivers_rows_witness :
  let h := mkHelpers (V := nat) (T := nat)
             (fun _ _ =>
                inl (mkResponse 200 (-1)
                       (mkBody (response header_2 [payload_a]
                                  (payload_b ++ [CR; LF]) (txt "]}" ++ [LF]))
                               io_EOF 0 [])))
             (fun _ => "/"%string)
             (fun _ _ _ => inl "/db/_all_docs"%string)
             (fun _ _ => false) (fun _ t => (t, None)) in
  exists s,
    AllDocsScanner h (mkDB "db") [] [] =
      ((Some s, None), [] ++ [mkCall false "GET" "/db/_all_docs" None])
    /\ trace (run json.Unmarshal_Row (rounds 3 ++ [CallErr]) s) =
       [EvScan true row_a; EvScan true row_b; EvScan false Row_zero;
        EvErr None].
Proof.
  intros h.
  apply (@AllDocsScanner_delivers_rows json.Unmarshal_Row nat nat h
           (mkDB "db") [] [] "/db/_all_docs"%string
           (mkResponse 200 (-1)
              (mkBody (response header_2 [payload_a]
                         (payload_b ++ [CR; LF]) (txt "]}" ++ [LF]))
                      io_EOF 0 []))
           header_2 [payload_a] [row_a] (payload_b ++ [CR; LF]) [row_b]
           (txt "]}" ++ [LF]) io_EOF);
    try reflexivity.
  - vm_compute. intuition discriminate.
  - repeat constructor; vm_compute; intuition discriminate.
  - constructor; repeat split; vm_compute; intuition discriminate.
Defined.

(** X13.  [EnsureDB] makes the one PUT of [CreateDB] and takes a refusal
    with status 412 (the database exists) for a success: it returns the
    database of that name and no error when the request succeeded or
    failed with status 412, and no database and the request's error
    otherwise. *)
Theorem EnsureDB_accepts_existing
  (V T : Type) (h : helpers V T) (name : string) (log : list call) :
  let put := mkCall true "PUT" (path h [name]) None in
  let '((odb, e), log') := EnsureDB h name log in
  log' = log ++ [put]
  /\ log' = snd (CreateDB h name log)
  /\ match server h log put with
     | inl _ => odb = Some (mkDB name) /\ e = None
     | inr e' =>
         if ErrorStatus h e' StatusPreconditionFailed
         then odb = Some (mkDB name) /\ e = None
         else odb = None /\ e = Some e'
     end.
Proof.
  unfold EnsureDB, CreateDB, closedRequest. simpl.
  destruct (server h log _) as [resp|e']; simpl; [auto|].
  destruct (ErrorStatus h e' StatusPreconditionFailed); simpl; auto.
Qed.

(** * More about waiting in Scan *)

(** X14.  After a call of [Close] nobody waits in [Scan]: a consumer
    that was waiting has been woken, and every later call returns at
    once. *)
Theorem Close_unblocks_Scan
  (Unmarshal : bytes.t -> Row * option error)
  (data : bytes.t) (failure : error) (sched sched' : list action) :
  let s0 := newRowScanner (mkBody data failure 0 []) in
  consumer (run Unmarshal (sched ++ CallClose :: sched') s0) = Idle.
Proof.
  intros s0. rewrite run_app. simpl.
  set (s := run Unmarshal sched s0).
  assert (HI : Inv s) by (apply Inv_run, Inv_init).
  assert (HI1 : Inv (step Unmarshal s CallClose)) by now apply Inv_step.
  assert (HI2 : Inv (run Unmarshal sched' (step Unmarshal s CallClose)))
    by now apply Inv_run.
  apply (inv_quit HI2). apply cancelled_stays; [exact HI1|].
  now apply Close_closes_quit.
Qed.

(** X15.  In an uncancelled scan a call of [Scan] is answered after four
    steps of the reader at the latest, wherever the reader is. *)
Theorem Scan_is_answered
  (Unmarshal : bytes.t -> Row * option error)
  (data : bytes.t) (failure : error) (sched : list action) :
  uncancelled sched ->
  let s := run Unmarshal sched (newRowScanner (mkBody data failure 0 [])) in
  consumer s = Idle ->
  let s' := run Unmarshal round s in
  consumer s' = Idle
  /\ List.length (scans (trace s')) = S (List.length (scans (trace s))).
Proof.
  intros Hu s Hc.
  assert (HI : Inv s) by (apply Inv_run, Inv_init).
  destruct (@uncancelled_open Unmarshal sched
              (newRowScanner (mkBody data failure 0 []))
              (uncancelled_calls Hu) eq_refl eq_refl) as [Hq Hp].
  now apply round_answers.
Qed.

Lemma Scan_is_answered_witness :
  let s := run json.Unmarshal_Row [Reader false; CallErr; Reader false]
               (newRowScanner (mkBody crlf_body io_EOF 0 [])) in
  let s' := run json.Unmarshal_Row round s in
  consumer s' = Idle
  /\ List.length (scans (trace s')) = S (List.length (scans (trace s))).
Proof.
  apply (@Scan_is_answered json.Unmarshal_Row crlf_body io_EOF
           [Reader false; CallErr; Reader false]).
  - repeat (constructor; [reflexivity|]). constructor.
  - reflexivity.
Defined.
